(** * Incident store, similarity search and pattern analysis

    A shallow embedding of the Python sources

    - [config.py]                 (class [Config]),
    - [excel_to_db_processor.py]  (class [ExcelToDBProcessor]),
    - [jira_updater.py]           (class [JiraCommentUpdater]),
    - [jira_updater_enhanced.py]  (class [EnhancedJiraCommentUpdater]),
    - [web_interface.py]          (the form handling of the routes),

    and the properties of the ingestion pipeline, the similarity ranker,
    the pattern analyzer and the processing of Jira issues proved or
    refuted about them.

    Conventions of the embedding.
    - Python floats are idealised as exact numbers: vector components,
      thresholds and confidence scores are rationals ([Q]); the Euclidean
      norm is kept as a symbolic square root ([root]), so a cosine score is
      an exact quotient [x / sqrt y].  What IEEE arithmetic does on a zero
      divisor (NaN, infinities) is modelled explicitly; rounding is not.
    - Python exceptions are values of [exn]; code that may raise returns a
      [result]; code that also reads or writes the DuckDB table threads the
      table through ([db]).
    - The DuckDB table [incidents] is the list of its rows in insertion
      order, with the [PRIMARY KEY] constraint on column [INC] checked by
      [insert_row].
    - Calls that leave the repository (the embedding models, the Jira
      client, the language model) are Section variables; what they touch
      outside the interpreter is a state [world] that is threaded through.
    - The JSON directory is the map from paths to the records dumped there
      ([files]); a Jira issue resource is a JSON value ([json]). *)

From Stdlib Require Import QArith Qabs Qminmax Qcanon Lqa Ascii.
From stdpp Require Import gmap strings list sorting pretty.


(** ** Python results *)

(** The exception classes the modelled code can meet. *)
Inductive exn : Type :=
  | ValueError (msg : string)           (* numpy: operands of unequal shape *)
  | ConstraintException (key : string)  (* DuckDB: duplicate PRIMARY KEY *)
  | Exception (msg : string).           (* any other subclass of Exception *)
(* What is raised outside the class Exception (KeyboardInterrupt,
   SystemExit) ends the process and is not modelled. *)

Inductive result (A : Type) : Type :=
  | Ok (a : A)
  | Raise (e : exn).
Arguments Ok {A} a.
Arguments Raise {A} e.

Global Instance result_ret : MRet result := λ A, Ok.

Global Instance result_bind : MBind result := λ A B k r,
  match r with
  | Ok a => k a
  | Raise e => Raise e
  end.

(** ** Exact vectors and IEEE-style quotients *)

(** [List[float]] *)
Definition floats := list Q.

(** [np.dot(a, b)] on one-dimensional operands; unequal lengths raise
    [ValueError: shapes (n,) and (m,) not aligned]. *)
Fixpoint dot (a b : floats) : result Q :=
  match a, b with
  | [], [] => Ok 0%Q
  | x :: a', y :: b' => r ← dot a' b'; Ok (x * y + r)%Q
  | _, _ => Raise (ValueError "shapes not aligned")
  end.

Fixpoint sum_squares (a : floats) : Q :=
  match a with
  | [] => 0%Q
  | x :: a' => (x * x + sum_squares a')%Q
  end.

(** A non-negative square root, kept symbolic: [Sqrt y] stands for the real
    number [sqrt y]. *)
Inductive root : Type := Sqrt (radicand : Q).

Definition radicand (r : root) : Q := let 'Sqrt y := r in y.

(** [np.linalg.norm(a)] *)
Definition norm (a : floats) : root := Sqrt (sum_squares a).

(** [sqrt x * sqrt y = sqrt (x * y)] *)
Definition root_mul (r s : root) : root := Sqrt (radicand r * radicand s).

Definition root_is_zero (r : root) : bool := Qeq_bool (radicand r) 0.

(** A numpy float: a finite quotient [num / den], an infinity, or NaN. *)
Inductive pyfloat : Type :=
  | Quot (num : Q) (den : root)
  | Inf (negative : bool)
  | NaN.

Definition Qneg_bool (x : Q) : bool := negb (Qle_bool 0 x).

(** numpy's float division: a zero divisor gives NaN for [0 / 0] and a
    signed infinity otherwise (with a RuntimeWarning, not an exception). *)
Definition float_div (x : Q) (r : root) : pyfloat :=
  if root_is_zero r then
    if Qeq_bool x 0 then NaN else Inf (Qneg_bool x)
  else Quot x r.

Definition float_of_Q (t : Q) : pyfloat := Quot t (Sqrt 1).

(** *** Ordering floats

    [x / sqrt y] is compared through [v ↦ v * |v|], which is strictly
    increasing on the reals and sends [x / sqrt y] to the rational
    [x * |x| / y].  NaN sorts above every number, as in DuckDB. *)
Inductive ext (A : Type) : Type :=
  | NInfK
  | FinK (a : A)
  | PInfK
  | NaNK.
Arguments NInfK {A}.
Arguments FinK {A} a.
Arguments PInfK {A}.
Arguments NaNK {A}.

Definition ext_rank {A} (k : ext A) : nat :=
  match k with
  | NInfK => 0
  | FinK _ => 1
  | PInfK => 2
  | NaNK => 3
  end.

Definition signed_square (x y : Q) : Q := (x * Qabs x / y)%Q.

Definition float_key (s : pyfloat) : ext Q :=
  match s with
  | Quot x (Sqrt y) => FinK (signed_square x y)
  | Inf true => NInfK
  | Inf false => PInfK
  | NaN => NaNK
  end.

Definition ext_leb (a b : ext Q) : bool :=
  match a, b with
  | FinK p, FinK q => Qle_bool p q
  | _, _ => ext_rank a <=? ext_rank b
  end.

(** The total order DuckDB sorts [FLOAT] values by. *)
Definition sql_leb (a b : pyfloat) : bool := ext_leb (float_key a) (float_key b).

Definition is_nan (s : pyfloat) : bool :=
  match s with NaN => true | _ => false end.

(** Python's [a >= b] on floats: false as soon as one side is NaN. *)
Definition float_geb (a b : pyfloat) : bool :=
  negb (is_nan a) && negb (is_nan b) && sql_leb b a.

(** ** cosine_similarity (the same in both updaters) *)

(** [np.dot(a, b) / (np.linalg.norm(a) * np.linalg.norm(b))] *)
Definition cosine_similarity (a b : floats) : result pyfloat :=
  d ← dot a b; Ok (float_div d (root_mul (norm a) (norm b))).


(** ** config.py *)

Module Config.
Definition SIMILARITY_THRESHOLD : Q := 3 # 10.
Definition MAX_SIMILAR_INCIDENTS : nat := 5.
Definition MIN_INCIDENTS_FOR_ANALYSIS : nat := 3.
End Config.

(** ** The [incidents] table *)

(** One row of the table created by [setup_database]; column ["Updated By "]
    is spelt with its trailing blank in the source. *)
Record incident_row : Type := {
  INC : string;
  Short_Desc : string;
  Created_Date : option string;
  Updated_Date : option string;
  Assignee : string;
  Group : string;
  Created_By : string;
  Updated_By_ : string;
  vector : floats;
  json_file_path : string
}.

(** The table, in insertion order. *)
Definition table := list incident_row.

(** Code with a state [S] that may raise: what it changed before raising
    stays changed. *)
Definition prog (S A : Type) : Type := S → result A * S.

Global Instance prog_ret {S} : MRet (prog S) := λ A a st, (Ok a, st).

Global Instance prog_bind {S} : MBind (prog S) := λ A B k m st,
  match m st with
  | (Ok a, st') => k a st'
  | (Raise e, st') => (Raise e, st')
  end.

Definition raise {S A} (e : exn) : prog S A := λ st, (Raise e, st).

(** [try: body  except Exception as e: handler(e)] *)
Definition try_except {S A} (body : prog S A) (handler : exn → prog S A)
    : prog S A := λ st,
  match body st with
  | (Ok a, st') => (Ok a, st')
  | (Raise e, st') => handler e st'
  end.

(** [for x in l: body(x)] *)
Fixpoint for_each {S A} (l : list A) (body : A → prog S unit) : prog S unit :=
  match l with
  | [] => mret tt
  | x :: l' => _ ← body x; for_each l' body
  end.

(** Code running against the DuckDB connection. *)
Abbreviation db := (prog table).

(** [INSERT INTO incidents VALUES (...)] for one parameter tuple: the
    [PRIMARY KEY] on [INC] rejects a key that is already stored; no other
    column is constrained ([vector] is a [FLOAT[]] of any length). *)
Definition insert_row (r : incident_row) : db unit := λ st,
  if decide (INC r ∈ INC <$> st) then (Raise (ConstraintException (INC r)), st)
  else (Ok tt, st ++ [r]).

(** [con.executemany(sql, values)]: the statement is run once per parameter
    tuple, each run committed on its own. *)
Definition executemany (values : list incident_row) : db unit :=
  for_each values insert_row.

(** [range(0, n, step)] *)
Definition range_step (n step : nat) : list nat :=
  (λ k, k * step) <$> seq 0 ((n + step - 1) `div` step).

(** [l[i:j]] *)
Definition slice {A} (i j : nat) (l : list A) : list A := take (j - i) (drop i l).

(** ** excel_to_db_processor.py *)

(** A row of the DataFrame as [prepare_incident_data] reads it: every cell
    is already passed through [str(row.get(..., ''))], the two dates
    through [pd.to_datetime(...).isoformat()] ([None] for an empty cell). *)
Record excel_row : Type := {
  xl_INC : string;
  xl_Short_Desc : string;
  xl_Created_Date : option string;
  xl_Updated_Date : option string;
  xl_Assignee : string;
  xl_Group : string;
  xl_Created_By : string;
  xl_Updated_By_ : string
}.

Module ExcelToDBProcessor.
Section processor.
(** [generate_embedding]: the call to the embedding service; the source
    makes it return [[]] when the service fails. *)
Variable generate_embedding : string → floats.

(** [SELECT INC FROM incidents] collected into a set.  (The handler that
    answers the empty set when the query fails is never entered: the table
    of the model can always be read.) *)
Definition get_existing_incidents : db (gset string) := λ st,
  (Ok (list_to_set (INC <$> st)), st).

(** [os.path.join(json_dir, f"{inc_number}.json")] *)
Definition json_path (json_dir inc_number : string) : string :=
  json_dir +:+ "/" +:+ inc_number +:+ ".json".

(** The body of the loop of [prepare_incident_data] for one row. *)
Definition prepare_row (existing_incs : gset string) (json_dir : string)
    (new_incidents : list incident_row) (row : excel_row) : list incident_row :=
  let inc_number := xl_INC row in
  if decide (inc_number ∈ existing_incs) then new_incidents
  else if decide (inc_number = "" ∨ inc_number = "nan") then new_incidents
  else
    let short_desc := xl_Short_Desc row in
    new_incidents ++ [
      {| INC := inc_number;
         Short_Desc := short_desc;
         Created_Date := xl_Created_Date row;
         Updated_Date := xl_Updated_Date row;
         Assignee := xl_Assignee row;
         Group := xl_Group row;
         Created_By := xl_Created_By row;
         Updated_By_ := xl_Updated_By_ row;
         vector := if decide (short_desc = "") then []
                   else generate_embedding short_desc;
         json_file_path := json_path json_dir inc_number |} ].

Definition prepare_incident_data (df : list excel_row) (json_dir : string)
    : db (list incident_row) :=
  existing_incs ← get_existing_incidents;
  mret (foldl (prepare_row existing_incs json_dir) [] df).

Definition batch_size : nat := 100.

Definition insert_incidents (incidents : list incident_row) : db unit :=
  match incidents with
  | [] => mret tt
  | _ =>
      try_except
        (for_each (range_step (length incidents) batch_size) (λ i,
           let batch := slice i (i + batch_size) incidents in
           executemany batch))
        (λ e, raise e)
  end.

(** [process_excel_to_db] from the DataFrame on: reading the workbook and
    writing the JSON copies do not touch the table. *)
Definition process_excel_to_db (df : list excel_row) (json_dir : string)
    : db unit :=
  try_except
    (incidents ← prepare_incident_data df json_dir;
     insert_incidents incidents)
    (λ e, raise e).
End processor.
End ExcelToDBProcessor.

(** ** Similarity search (jira_updater.py and jira_updater_enhanced.py) *)

(** A row of the result set: the selected columns of a table row and the
    computed [similarity]. *)
Definition sql_row : Type := incident_row * pyfloat.

(** What [ORDER BY similarity DESC] promises of the engine: the rows come
    back rearranged so that similarities never increase.  How rows of equal
    similarity are arranged is left to the engine. *)
Definition similarity_desc (x y : sql_row) : Prop := sql_leb (snd y) (snd x).

Definition orders_by_similarity_desc (order_by : list sql_row → list sql_row)
    : Prop :=
  ∀ rows, order_by rows ≡ₚ rows ∧ Sorted similarity_desc (order_by rows).

(** An engine that keeps rows of equal similarity in scan order. *)
Fixpoint insert_desc (x : sql_row) (rows : list sql_row) : list sql_row :=
  match rows with
  | [] => [x]
  | y :: rows' =>
      if sql_leb (snd y) (snd x) then x :: y :: rows'
      else y :: insert_desc x rows'
  end.

Definition scan_order_engine (rows : list sql_row) : list sql_row :=
  foldr insert_desc [] rows.

(** The dictionary built for each match.  [Assignee] and [Group] are read
    back with [incident.get(key, 'Unknown')], so for these two the absent
    key is part of the model ([None]). *)
Record incident : Type := {
  i_INC : string;
  i_Short_Desc : string;
  i_Created_Date : option string;
  i_Updated_Date : option string;
  i_Assignee : option string;
  i_Group : option string;
  i_Created_By : string;
  i_Updated_By : string;
  i_similarity : pyfloat
}.

Definition incident_of_row (row : sql_row) : incident :=
  {| i_INC := INC (fst row);
     i_Short_Desc := Short_Desc (fst row);
     i_Created_Date := Created_Date (fst row);
     i_Updated_Date := Updated_Date (fst row);
     i_Assignee := Some (Assignee (fst row));
     i_Group := Some (Group (fst row));
     i_Created_By := Created_By (fst row);
     i_Updated_By := Updated_By_ (fst row);
     i_similarity := snd row |}.

Section search.
(** [self.model.encode([text])[0].tolist()] *)
Variable encode : string → floats.
(** The engine's [ORDER BY similarity DESC]. *)
Variable order_by_similarity_desc : list sql_row → list sql_row.

(** [SELECT ..., cosine_similarity(vector, ?) AS similarity FROM incidents]:
    the Python function is called on every row; an exception in it fails
    the query.  (Registering the function with the connection,
    [con.create_function], is not part of the model.) *)
Definition select_similarity (st : table) (query_vector : floats)
    : result (list sql_row) :=
  mapM (λ r, s ← cosine_similarity (vector r) query_vector; Ok (r, s)) st.

(** [con.execute(sql_query, [query_vector, limit]).fetchall()]; the operand
    of [LIMIT] is modelled for the counts [0, 1, 2, ...]. *)
Definition execute_query (st : table) (query_vector : floats) (limit : nat)
    : result (list sql_row) :=
  rows ← select_similarity st query_vector;
  Ok (take limit (order_by_similarity_desc rows)).

(** The loop over the fetched rows. *)
Definition keep_above (threshold : Q) (results : list sql_row) : list incident :=
  incident_of_row <$>
    List.filter (λ row, float_geb (snd row) (float_of_Q threshold)) results.

(** What the two [search_similar_incidents] have in common, once threshold
    and limit are known. *)
Definition search (st : table) (jira_description : string) (threshold : Q)
    (limit : nat) : result (list incident) :=
  let query_vector := encode jira_description in
  results ← execute_query st query_vector limit;
  Ok (keep_above threshold results).
End search.

(** ** Pattern analysis *)

(** A Python [dict] from labels to lists, as the association list of its
    items in insertion order, which is the order [keys()] iterates in. *)
Definition label_dict (V : Type) : Type := list (string * list V).

(** [if k not in d: d[k] = []] followed by [d[k].append(v)] *)
Fixpoint dict_append {V} (d : label_dict V) (k : string) (v : V) : label_dict V :=
  match d with
  | [] => [(k, [v])]
  | (k', vs) :: d' =>
      if decide (k' = k) then (k', vs ++ [v]) :: d'
      else (k', vs) :: dict_append d' k v
  end.

(** [d[k]] for a key of [d] *)
Fixpoint dict_get {V} (d : label_dict V) (k : string) : list V :=
  match d with
  | [] => []
  | (k', vs) :: d' => if decide (k' = k) then vs else dict_get d' k
  end.

Definition dict_keys {V} (d : label_dict V) : list string := fst <$> d.

(** [max(xs, key=key)]: the first of the items with the largest key;
    [ValueError] on an empty sequence. *)
Definition py_max {A} (key : A → nat) (xs : list A) : result A :=
  match xs with
  | [] => Raise (ValueError "max() arg is an empty sequence")
  | x :: xs' => Ok (foldl (λ best y, if key best <? key y then y else best) x xs')
  end.

(** [min(a, b)] on floats: [b] only when [b < a]. *)
Definition py_min (a b : Q) : Q := if Qle_bool a b then a else b.

Definition get_Assignee (i : incident) : string := default "Unknown" (i_Assignee i).
Definition get_Group (i : incident) : string := default "Unknown" (i_Group i).

(** The loop filling [assignee_patterns] (or [group_patterns]). *)
Definition group_by (label : incident → string) (similar_incidents : list incident)
    : label_dict incident :=
  foldl (λ d i, dict_append d (label i) i) [] similar_incidents.

(** [max(d.keys(), key=lambda k: len(d[k]))] *)
Definition most_common (d : label_dict incident) : result string :=
  py_max (λ k, length (dict_get d k)) (dict_keys d).

(** [len(similar_incidents) * 0.15] *)
Definition count_times_015 (n : nat) : Q := (inject_Z (Z.of_nat n) * (15 # 100))%Q.

(** ** jira_updater.py *)

Module JiraCommentUpdater.
Section updater.
Variable encode : string → floats.
Variable order_by_similarity_desc : list sql_row → list sql_row.

(** [threshold: float = 0.3, limit: int = 5]: the defaults are supplied
    at the call site. *)
Definition search_similar_incidents (st : table) (jira_description : string)
    (threshold : Q) (limit : nat) : result (list incident) :=
  let query_vector := encode jira_description in
  results ← execute_query order_by_similarity_desc st query_vector limit;
  Ok (keep_above threshold results).
End updater.

Record analysis : Type := {
  similar_patterns : list string;
  common_fixes : list string;
  recommended_actions : list string;
  confidence_score : Q
}.

Definition analyze_historical_patterns (similar_incidents : list incident)
    (jira_description : string) : result analysis :=
  match similar_incidents with
  | [] =>
      Ok {| similar_patterns := []; common_fixes := [];
            recommended_actions := []; confidence_score := 0 |}
  | _ =>
      let assignee_patterns := group_by get_Assignee similar_incidents in
      let group_patterns := group_by get_Group similar_incidents in
      most_common_assignee ← most_common assignee_patterns;
      most_common_group ← most_common group_patterns;
      let n := length similar_incidents in
      let confident := 3 <=? n in
      Ok {| similar_patterns :=
              [ "Most incidents handled by: " +:+ most_common_assignee;
                "Most incidents in group: " +:+ most_common_group;
                "Total similar incidents found: " +:+ pretty n ];
            common_fixes := [];
            recommended_actions :=
              if confident then
                [ "Assign to " +:+ most_common_assignee
                    +:+ " as they have handled similar incidents";
                  "Consider involving " +:+ most_common_group +:+ " team";
                  "Review past solutions from similar incidents" ]
              else [];
            confidence_score :=
              if confident then py_min (8 # 10) (count_times_015 n) else 0 |}
  end.
End JiraCommentUpdater.

(** ** jira_updater_enhanced.py *)

Module EnhancedJiraCommentUpdater.
Section updater.
Variable encode : string → floats.
Variable order_by_similarity_desc : list sql_row → list sql_row.

Definition search_similar_incidents (st : table) (jira_description : string)
    (threshold : option Q) (limit : option nat) : result (list incident) :=
  let threshold := default Config.SIMILARITY_THRESHOLD threshold in
  let limit := default Config.MAX_SIMILAR_INCIDENTS limit in
  let query_vector := encode jira_description in
  results ← execute_query order_by_similarity_desc st query_vector limit;
  Ok (keep_above threshold results).
End updater.

Record analysis : Type := {
  patterns : list string;
  root_causes : list string;
  recommendations : list string;
  confidence_score : Q;
  suggested_assignee : string;
  suggested_group : string
}.

Definition analyze_historical_patterns (similar_incidents : list incident)
    (jira_description : string) : result analysis :=
  match similar_incidents with
  | [] =>
      Ok {| patterns := []; root_causes := []; recommendations := [];
            confidence_score := 0;
            suggested_assignee := "Unknown"; suggested_group := "Unknown" |}
  | _ =>
      let assignee_patterns := group_by get_Assignee similar_incidents in
      let group_patterns := group_by get_Group similar_incidents in
      most_common_assignee ← most_common assignee_patterns;
      most_common_group ← most_common group_patterns;
      let n := length similar_incidents in
      let confident := Config.MIN_INCIDENTS_FOR_ANALYSIS <=? n in
      Ok {| patterns :=
              [ "Most incidents handled by: " +:+ most_common_assignee;
                "Most incidents in group: " +:+ most_common_group;
                "Total similar incidents found: " +:+ pretty n ];
            root_causes := [];
            recommendations :=
              if confident then
                [ "Assign to " +:+ most_common_assignee
                    +:+ " as they have handled similar incidents";
                  "Consider involving " +:+ most_common_group +:+ " team";
                  "Review past solutions from similar incidents";
                  "Check for common root causes in historical data" ]
              else
                [ "Limited historical data available";
                  "Consider broader search criteria";
                  "Manual review recommended" ];
            confidence_score :=
              if confident then py_min (8 # 10) (count_times_015 n)
              else 3 # 10;
            suggested_assignee := most_common_assignee;
            suggested_group := most_common_group |}
  end.

Section batch.
(** Everything [process_jira_issue] reads and writes outside the
    interpreter: the Jira server, the model, the console. *)
Variable world : Type.
(** [self.process_jira_issue(issue_key)]: returns a boolean or raises. *)
Variable process_jira_issue : string → prog world bool.

(** The loop of [batch_process_issues], from the dictionary built so far. *)
Fixpoint batch_loop (issue_keys : list string) (results : gmap string bool)
    : prog world (gmap string bool) :=
  match issue_keys with
  | [] => mret results
  | issue_key :: issue_keys' =>
      results' ←
        try_except
          (success ← process_jira_issue issue_key;
           mret (<[issue_key := success]> results))
          (λ e, mret (<[issue_key := false]> results));
      batch_loop issue_keys' results'
  end.

Definition batch_process_issues (issue_keys : list string)
    : prog world (gmap string bool) :=
  batch_loop issue_keys ∅.
End batch.
End EnhancedJiraCommentUpdater.

(** ** web_interface.py *)

Module WebInterface.
Section routes.
(** Python's [float(s)] on a form field: the number read, or [ValueError]. *)
Variable float : string → result Q.

End routes.
End WebInterface.

(** ** Vocabulary of the statements *)

(** A vector of magnitude zero: [np.linalg.norm] gives [0.0]. *)
Definition zero_magnitude (a : floats) : Prop := root_is_zero (norm a) = true.

(** Two scores that compare equal. *)
Definition same_score (a b : pyfloat) : Prop := sql_leb a b ∧ sql_leb b a.

(** [i] may stand before [j] in a ranking by similarity, best first. *)
Definition ranked_desc (i j : incident) : Prop :=
  sql_leb (i_similarity j) (i_similarity i).


(** The key of a score in canonical form: equal keys for equal scores. *)
Definition canonical_key (s : pyfloat) : ext Qc :=
  match float_key s with
  | NInfK => NInfK
  | FinK q => FinK (Q2Qc q)
  | PInfK => PInfK
  | NaNK => NaNK
  end.

Definition ext_le (a b : ext Qc) : Prop :=
  match a, b with
  | FinK p, FinK q => (p <= q)%Qc
  | _, _ => ext_rank a ≤ ext_rank b
  end.



(** The keys of [prepare_incident_data]'s output: not in the snapshot of the
    stored keys, not empty and not ['nan']. *)
Definition new_key (existing_incs : gset string) (k : string) : Prop :=
  (k ∉ existing_incs) ∧ ¬ (k = "" ∨ k = "nan").

Global Instance new_key_dec existing_incs k : Decision (new_key existing_incs k).
Proof. unfold new_key. apply _. Defined.

Definition stored_keys (st : table) : gset string := list_to_set (INC <$> st).

(** The new keys of a DataFrame, one for each row that carries one. *)
Definition new_keys (st : table) (df : list excel_row) : list string :=
  filter (new_key (stored_keys st)) (xl_INC <$> df).

(** Records the table takes without complaint: keys that are not stored
    and not repeated. *)
Definition insertable (st : table) (incidents : list incident_row) : Prop :=
  NoDup (INC <$> incidents) ∧ ∀ k, k ∈ INC <$> incidents → k ∉ INC <$> st.



(** How often a label occurs, and where it occurs first (the length of the
    list when it does not occur). *)
Definition occurrences (k : string) (labels : list string) : nat :=
  length (filter (λ x, x = k) labels).

Fixpoint first_index (k : string) (labels : list string) : nat :=
  match labels with
  | [] => 0
  | x :: labels' => if decide (x = k) then 0 else S (first_index k labels')
  end.

(** [m] is a most frequent label, and among the most frequent labels the
    one that occurs first. *)
Definition earliest_most_common (m : string) (labels : list string) : Prop :=
  m ∈ labels ∧
  (∀ k, occurrences k labels ≤ occurrences m labels) ∧
  (∀ k, k ≠ m → occurrences k labels = occurrences m labels →
        first_index m labels < first_index k labels).

(** The boolean [batch_process_issues] records for one issue: what
    [process_jira_issue] returned, or [False] when it raised. *)
Definition recorded (r : result bool) : bool :=
  match r with
  | Ok success => success
  | Raise _ => false
  end.

(** ** Sample data *)

Module Sample.
(** An embedding model with two-dimensional output. *)
Definition embed (text : string) : floats :=
  if decide (text = "database is down") then [1; 0]%Q
  else if decide (text = "printer jam") then [0; 1]%Q
  else [9 # 10; 1 # 10]%Q.

Definition xl (inc short_desc assignee group : string) : excel_row :=
  {| xl_INC := inc; xl_Short_Desc := short_desc;
     xl_Created_Date := Some "2025-01-05T00:00:00";
     xl_Updated_Date := None;
     xl_Assignee := assignee; xl_Group := group;
     xl_Created_By := "RR"; xl_Updated_By_ := assignee |}.

Definition row (inc short_desc assignee group : string) (v : floats)
    : incident_row :=
  {| INC := inc; Short_Desc := short_desc;
     Created_Date := Some "2025-01-05T00:00:00";
     Updated_Date := None;
     Assignee := assignee; Group := group;
     Created_By := "RR"; Updated_By_ := assignee;
     vector := v;
     json_file_path := ExcelToDBProcessor.json_path "out" inc |}.

Definition match_ (inc assignee group : string) : incident :=
  {| i_INC := inc; i_Short_Desc := "UI is not loading";
     i_Created_Date := None; i_Updated_Date := None;
     i_Assignee := Some assignee; i_Group := Some group;
     i_Created_By := "RR"; i_Updated_By := assignee;
     i_similarity := Quot 1 (Sqrt 1) |}.

(** The table after ingesting one incident with a description and one
    without. *)
Definition table_with_blank : table :=
  snd (ExcelToDBProcessor.process_excel_to_db embed
         [ xl "INC1" "database is down" "jack" "app-dev";
           xl "INC2" "" "xyz" "app-dev" ] "out" []).



(** The corpus of the scenario: A, B and C. *)
Definition table_abc : table :=
  [ row "A" "database is down" "jack" "app-dev" [1; 0]%Q;
    row "B" "printer jam" "xyz" "it-ops" [0; 1]%Q;
    row "C" "database is slow" "jack" "app-dev" [9 # 10; 1 # 10]%Q ].

(** A [process_jira_issue] that posts a comment (the world is the list of
    issues commented on), finds nothing for [PROJ-2] and raises on
    [PROJ-3]. *)
Definition process (issue_key : string) : prog (list string) bool := λ w,
  if decide (issue_key = "PROJ-3") then (Raise (Exception "connection reset"), w)
  else if decide (issue_key = "PROJ-2") then (Ok false, w)
  else (Ok true, w ++ [issue_key]).
End Sample.

(** ** Further vocabulary *)


(** Two outcomes of a score computation that cannot be told apart: equal
    scores, or the same exception. *)
Definition same_outcome (r r' : result pyfloat) : Prop :=
  match r, r' with
  | Ok s, Ok s' => same_score s s'
  | Raise e, Raise e' => e = e'
  | _, _ => False
  end.


(** The batches the loop of [insert_incidents] hands to [executemany], one
    for each [i] of [range(0, len(incidents), batch_size)]. *)
Definition batches (incidents : list incident_row) : list (list incident_row) :=
  (λ i, slice i (i + ExcelToDBProcessor.batch_size) incidents)
    <$> range_step (length incidents) ExcelToDBProcessor.batch_size.

(** ** convert_to_json (excel_to_db_processor.py) *)

(** The JSON directory as far as [convert_to_json] touches it: the record
    dumped at each path ([record_data] has the cells of the row, converted
    as in [prepare_incident_data]).  [os.makedirs] and [open(path, 'w')]
    are taken to succeed. *)
Definition files : Type := gmap string excel_row.

(** [for x in l: acc = body(acc, x)] *)
Fixpoint fold_prog {S A B} (body : B → A → prog S B) (l : list A) (acc : B)
    : prog S B :=
  match l with
  | [] => mret acc
  | x :: l' => acc' ← body acc x; fold_prog body l' acc'
  end.

(** The body of the loop of [convert_to_json] for one row. *)
Definition write_record (json_dir : string) (json_files_created : list string)
    (row : excel_row) : prog files (list string) := λ fs,
  let inc_number := xl_INC row in
  if decide (inc_number = "" ∨ inc_number = "nan")
  then (Ok json_files_created, fs)
  else
    let json_file_path := ExcelToDBProcessor.json_path json_dir inc_number in
    (Ok (json_files_created ++ [json_file_path]), <[json_file_path := row]> fs).

Definition convert_to_json (df : list excel_row) (json_dir : string)
    : prog files (list string) :=
  try_except (fold_prog (write_record json_dir) df []) (λ e, raise e).

(** The row is dumped by [convert_to_json], at this path. *)
Definition dumped_at (json_dir p : string) (row : excel_row) : Prop :=
  ¬ (xl_INC row = "" ∨ xl_INC row = "nan") ∧
  ExcelToDBProcessor.json_path json_dir (xl_INC row) = p.

Global Instance dumped_at_dec json_dir p row : Decision (dumped_at json_dir p row).
Proof. unfold dumped_at. apply _. Defined.

(** ** generate_embedding (excel_to_db_processor.py) *)

(** [genai.embed_content(...)['embedding']], and [[]] when that raises. *)
Definition generate_embedding (embed_content : string → result floats)
    (text : string) : floats :=
  match embed_content text with
  | Ok embedding => embedding
  | Raise _ => []
  end.

(** ** One Jira issue (jira_updater_enhanced.py) *)

(** Pure code inside stateful code. *)
Definition lift {S A} (r : result A) : prog S A := λ st, (r, st).

(** [try: body  except json.JSONDecodeError: handler].  The class derives
    from [ValueError], and [json.loads] raises no other [ValueError]. *)
Definition try_except_JSONDecodeError {S A} (body handler : prog S A)
    : prog S A := λ st,
  match body st with
  | (Raise (ValueError _), st') => handler st'
  | outcome => outcome
  end.

(** The JSON values at the places [get_jira_issue] reads: strings, [null]
    and objects (a [dict], as the list of its items). *)
Unset Elimination Schemes.
Inductive json : Type :=
  | JNull
  | JStr (s : string)
  | JObj (items : list (string * json)).
Set Elimination Schemes.

Fixpoint items_lookup (k : string) (items : list (string * json)) : option json :=
  match items with
  | [] => None
  | (k', v) :: items' => if decide (k' = k) then Some v else items_lookup k items'
  end.

(** [v.get(k, dflt)]: the value at [k], [dflt] when the key is missing;
    only a [dict] has the method. *)
Definition py_get (v : json) (k : string) (dflt : json) : result json :=
  match v with
  | JObj items => Ok (default dflt (items_lookup k items))
  | JNull => Raise (Exception "'NoneType' object has no attribute 'get'")
  | JStr _ => Raise (Exception "'str' object has no attribute 'get'")
  end.

(** [bool(v)] *)
Definition truthy (v : json) : bool :=
  match v with
  | JNull | JStr EmptyString | JObj [] => false
  | _ => true
  end.

(** The dictionary [get_jira_issue] returns. *)
Record issue_dict : Type := {
  fld_key : json;
  fld_summary : json;
  fld_description : json;
  fld_status : json;
  fld_assignee : json;
  fld_creator : json;
  fld_created : json;
  fld_updated : json
}.

(** The dictionary literal of [get_jira_issue], entry by entry. *)
Definition issue_to_dict (issue : json) : result issue_dict :=
  key ← py_get issue "key" JNull;
  fields ← py_get issue "fields" (JObj []);
  summary ← py_get fields "summary" (JStr "");
  fields ← py_get issue "fields" (JObj []);
  description ← py_get fields "description" (JStr "");
  fields ← py_get issue "fields" (JObj []);
  status ← py_get fields "status" (JObj []);
  status ← py_get status "name" (JStr "Unknown");
  fields ← py_get issue "fields" (JObj []);
  assignee ← py_get fields "assignee" (JObj []);
  assignee ← py_get assignee "displayName" JNull;
  fields ← py_get issue "fields" (JObj []);
  creator ← py_get fields "creator" (JObj []);
  creator ← py_get creator "displayName" (JStr "Unknown");
  fields ← py_get issue "fields" (JObj []);
  created ← py_get fields "created" (JStr "");
  fields ← py_get issue "fields" (JObj []);
  updated ← py_get fields "updated" (JStr "");
  Ok {| fld_key := key; fld_summary := summary;
        fld_description := description; fld_status := status;
        fld_assignee := assignee; fld_creator := creator;
        fld_created := created; fld_updated := updated |}.

Module IssueProcessing.
Section updater.
(** Everything outside the interpreter: the Jira server, the language
    model, the console. *)
Variable world : Type.
(** [self.jira]: whether [__init__] got a client. *)
Variable jira : bool.
(** [self.jira.get_issue(issue_key)] *)
Variable jira_get_issue : string → prog world json.
(** [self.jira.create_comment(issue_key, comment)] *)
Variable jira_create_comment : string → string → prog world unit.
(** [self.llm_available] *)
Variable llm_available : bool.
(** The prompt built from the description and the incidents sent through
    [openai.ChatCompletion.create], and the stripped content of the first
    choice. *)
Variable chat_completion : string → list incident → prog world string.
(** [json.loads] and the values it returns. *)
Variable parsed : Type.
Variable json_loads : string → result parsed.
(** [generate_analysis_comment]: the text is not modelled. *)
Variable generate_analysis_comment :
  string → list incident → EnhancedJiraCommentUpdater.analysis + parsed →
  result string.
Variable encode : string → floats.
Variable order_by_similarity_desc : list sql_row → list sql_row.
(** The table behind the read-only connection [self.con]. *)
Variable st : table.

Definition analyze_with_llm (jira_description : string)
    (similar_incidents : list incident)
    : prog world (EnhancedJiraCommentUpdater.analysis + parsed) :=
  let rule_based : prog world (EnhancedJiraCommentUpdater.analysis + parsed) :=
    analysis ← lift (EnhancedJiraCommentUpdater.analyze_historical_patterns
                       similar_incidents jira_description);
    mret (inl analysis) in
  if negb llm_available then rule_based
  else
    match similar_incidents with
    | [] => rule_based
    | _ =>
        try_except
          (llm_result ← chat_completion jira_description similar_incidents;
           try_except_JSONDecodeError
             (parsed_result ← lift (json_loads llm_result);
              mret (inr parsed_result))
             rule_based)
          (λ e, rule_based)
    end.

Definition get_jira_issue (issue_key : string) : prog world (option issue_dict) :=
  if negb jira then mret None
  else
    try_except
      (issue ← jira_get_issue issue_key;
       issue ← lift (issue_to_dict issue);
       mret (Some issue))
      (λ e, mret None).

Definition update_jira_comment (issue_key comment : string) : prog world bool :=
  if negb jira then mret false
  else
    try_except
      (_ ← jira_create_comment issue_key comment; mret true)
      (λ e, mret false).

Definition process_jira_issue (issue_key : string) (threshold : option Q)
    : prog world bool :=
  issue ← get_jira_issue issue_key;
  match issue with
  | None => mret false
  | Some issue =>
      let description := fld_description issue in
      if negb (truthy description) then mret false
      else
        match description with
        | JStr description =>
            similar_incidents ←
              lift (EnhancedJiraCommentUpdater.search_similar_incidents
                      encode order_by_similarity_desc st description
                      threshold None);
            match similar_incidents with
            | [] => mret false
            | _ =>
                analysis ← analyze_with_llm description similar_incidents;
                comment ← lift (generate_analysis_comment description
                                  similar_incidents analysis);
                update_jira_comment issue_key comment
            end
        | _ =>
            (* [description[:100]] on a dictionary *)
            raise (Exception "unhashable type: 'slice'")
        end
  end.

(** [batch_process_issues] calls [process_jira_issue] without a
    threshold. *)
Definition batch_process_issues (issue_keys : list string)
    : prog world (gmap string bool) :=
  EnhancedJiraCommentUpdater.batch_process_issues world
    (λ issue_key, process_jira_issue issue_key None) issue_keys.
End updater.
End IssueProcessing.

(** ** batch_process (web_interface.py) *)

Module BatchRoute.
Section text.
(** [c.isspace()]: the characters [str.strip] removes. *)
Variable isspace : ascii → bool.

(** The first piece of [s.split(sep)] and the pieces after it. *)
Fixpoint split_pieces (sep : ascii) (s : string) : string * list string :=
  match s with
  | EmptyString => (EmptyString, [])
  | String c s' =>
      let '(piece, pieces) := split_pieces sep s' in
      if decide (c = sep) then (EmptyString, piece :: pieces)
      else (String c piece, pieces)
  end.

(** [s.split(sep)] for a separator of one character. *)
Definition split (sep : ascii) (s : string) : list string :=
  let '(piece, pieces) := split_pieces sep s in piece :: pieces.

Fixpoint lstrip (s : string) : string :=
  match s with
  | EmptyString => EmptyString
  | String c s' => if isspace c then lstrip s' else s
  end.

Fixpoint rstrip (s : string) : string :=
  match s with
  | EmptyString => EmptyString
  | String c s' =>
      match rstrip s' with
      | EmptyString => if isspace c then EmptyString else String c EmptyString
      | t => String c t
      end
  end.

(** [s.strip()] *)
Definition strip (s : string) : string := rstrip (lstrip s).

(** [s.startswith(c)] for one character. *)
Definition startswith (c : ascii) (s : string) : bool :=
  match s with
  | String c' _ => bool_decide (c' = c)
  | EmptyString => false
  end.

(** [[key.strip() for key in line.split(',') if key.strip()]] *)
Definition keys_of_line (line : string) : list string :=
  strip <$> filter (λ key, strip key ≠ "") (split ","%char line).

(** The loop of [batch_process] that reads the issue keys from the form
    field. *)
Definition parse_issue_keys (issue_keys_text : string) : list string :=
  foldl (λ issue_keys line,
           let line := strip line in
           if bool_decide (line ≠ "") && negb (startswith "#"%char line)
           then issue_keys ++ keys_of_line line
           else issue_keys)
        [] (split "010"%char issue_keys_text).
End text.



Section route.
Variable isspace : ascii → bool.
Variable float : string → result Q.
Variable world : Type.
(** [get_updater()]: whether there is an updater. *)
Variable updater : bool.
(** [updater.process_jira_issue] *)
Variable process_jira_issue : string → prog world bool.

End route.
End BatchRoute.

(** The characters of a string. *)
Fixpoint chars (s : string) : list ascii :=
  match s with
  | EmptyString => []
  | String c s' => c :: chars s'
  end.

(** [sep.join(l)] for a separator of one character. *)
Fixpoint join (sep : ascii) (l : list string) : string :=
  match l with
  | [] => EmptyString
  | [x] => x
  | x :: l' => x +:+ String sep (join sep l')
  end.

(** A key as the form parser returns it: not empty, no blank at either
    end, no comma and no line break inside. *)
Definition clean_key (isspace : ascii → bool) (k : string) : Prop :=
  k ≠ "" ∧ BatchRoute.strip isspace k = k ∧
  (","%char ∉ chars k) ∧ ("010"%char ∉ chars k).

(** ** Sample Jira server *)

Module SampleJira.
(** The world is the list of issue keys commented on. *)
Definition issue (assignee : json) : json :=
  JObj [ ("key", JStr "PROJ-1");
         ("fields",
          JObj [ ("summary", JStr "Outage");
                 ("description", JStr "database is down");
                 ("status", JObj [("name", JStr "Open")]);
                 ("assignee", assignee);
                 ("creator", JObj [("displayName", JStr "RR")]);
                 ("created", JStr "2025-01-05T00:00:00");
                 ("updated", JStr "2025-01-06T00:00:00") ]) ].

(** [PROJ-2] is unassigned, [PROJ-404] does not exist. *)
Definition get_issue (issue_key : string) : prog (list string) json := λ w,
  if decide (issue_key = "PROJ-404") then (Raise (Exception "404"), w)
  else if decide (issue_key = "PROJ-2") then (Ok (issue JNull), w)
  else (Ok (issue (JObj [("displayName", JStr "jack")])), w).

Definition create_comment (issue_key comment : string)
    : prog (list string) unit := λ w,
  (Ok tt, w ++ [issue_key]).

(** A model that answers in prose. *)
Definition chat_completion (jira_description : string)
    (similar_incidents : list incident) : prog (list string) string := λ w,
  (Ok "I think the database is down.", w).

Definition json_loads (s : string) : result unit :=
  Raise (ValueError "Expecting value").

Definition generate_analysis_comment (jira_description : string)
    (similar_incidents : list incident)
    (analysis : EnhancedJiraCommentUpdater.analysis + unit) : result string :=
  Ok "**Automated Incident Analysis Report**".
End SampleJira.

(** * Properties *)

(** ** The monads *)

Lemma result_bind_Ok {A B} (r : result A) (k : A → result B) (b : B) :
  r ≫= k = Ok b ↔ ∃ a, r = Ok a ∧ k a = Ok b.
Proof.
  destruct r as [a|e]; simpl; split.
  - intros H. by exists a.
  - by intros (a' & [= ->] & H).
  - intros [=].
  - by intros (a' & [=] & _).
Qed.

(** ** Zero magnitude and unequal shapes in cosine_similarity *)

Lemma sum_squares_nonneg (a : floats) : (0 <= sum_squares a)%Q.
Proof.
  induction a as [|x a IH]; simpl; [lra|].
  assert (0 <= x * x)%Q by nra. lra.
Qed.

Lemma zero_magnitude_iff (a : floats) :
  zero_magnitude a ↔ Forall (λ x, (x == 0)%Q) a.
Proof.
  unfold zero_magnitude, root_is_zero, norm; simpl.
  rewrite Qeq_bool_iff. induction a as [|x a IH]; simpl.
  - split; [constructor | reflexivity].
  - pose proof (sum_squares_nonneg a) as Hs.
    assert (0 <= x * x)%Q as Hx by nra.
    rewrite Forall_cons, <- IH. split.
    + intros H. assert (x * x == 0)%Q as Hxx by lra.
      apply Qmult_integral in Hxx. split; [tauto | lra].
    + intros [-> ->]. lra.
Qed.

Lemma dot_Ok_length (a b : floats) (d : Q) : dot a b = Ok d → length a = length b.
Proof.
  revert b d. induction a as [|x a IH]; intros [|y b] d; simpl; try done.
  rewrite result_bind_Ok. intros (r & Hr & _). f_equal. eauto.
Qed.

Lemma dot_length_Ok (a b : floats) : length a = length b → ∃ d, dot a b = Ok d.
Proof.
  revert b. induction a as [|x a IH]; intros [|y b]; simpl; try done.
  - by exists 0%Q.
  - intros [= Hl]. destruct (IH b Hl) as (r & ->). simpl. eauto.
Qed.

Lemma dot_length_Raise (a b : floats) :
  length a ≠ length b → dot a b = Raise (ValueError "shapes not aligned").
Proof.
  revert b. induction a as [|x a IH]; intros [|y b]; simpl; try done.
  intros Hl. rewrite IH; [done | congruence].
Qed.

Lemma dot_zero_l (a b : floats) (d : Q) :
  Forall (λ x, (x == 0)%Q) a → dot a b = Ok d → (d == 0)%Q.
Proof.
  revert b d. induction a as [|x a IH]; intros [|y b] d Hz; simpl; try done.
  - by intros [= <-].
  - apply Forall_cons in Hz as [Hx Hz]. rewrite result_bind_Ok.
    intros (r & Hr & [= <-]). rewrite (IH _ _ Hz Hr), Hx. lra.
Qed.

Lemma dot_zero_r (a b : floats) (d : Q) :
  Forall (λ x, (x == 0)%Q) b → dot a b = Ok d → (d == 0)%Q.
Proof.
  revert b d. induction a as [|x a IH]; intros [|y b] d Hz; simpl; try done.
  - by intros [= <-].
  - apply Forall_cons in Hz as [Hy Hz]. rewrite result_bind_Ok.
    intros (r & Hr & [= <-]). rewrite (IH _ _ Hz Hr), Hy. lra.
Qed.

(** With vectors of one length, a zero-magnitude operand makes the quotient
    [0 / 0]: the score is NaN, not [0]. *)
Lemma cosine_similarity_zero_magnitude (a b : floats) :
  length a = length b →
  zero_magnitude a ∨ zero_magnitude b →
  cosine_similarity a b = Ok NaN.
Proof.
  intros Hl Hz. unfold cosine_similarity.
  destruct (dot_length_Ok a b Hl) as (d & Hd). rewrite Hd. simpl.
  assert (d == 0)%Q as Hd0.
  { destruct Hz as [Hz|Hz]; apply zero_magnitude_iff in Hz;
      eauto using dot_zero_l, dot_zero_r. }
  assert (sum_squares a * sum_squares b == 0)%Q as Hden.
  { destruct Hz as [Hz|Hz]; unfold zero_magnitude, root_is_zero in Hz;
      simpl in Hz; apply Qeq_bool_iff in Hz; rewrite Hz; lra. }
  unfold float_div, root_is_zero, root_mul; simpl.
  apply Qeq_bool_iff in Hd0, Hden. by rewrite Hden, Hd0.
Qed.

(** With vectors of unequal lengths (the empty vector of a record without
    description against any real query), the call raises. *)
Lemma cosine_similarity_shape_mismatch (a b : floats) :
  length a ≠ length b →
  cosine_similarity a b = Raise (ValueError "shapes not aligned").
Proof. intros Hl. unfold cosine_similarity. by rewrite dot_length_Raise. Qed.


(** ** The order on scores *)

Lemma sql_leb_ext_le (a b : pyfloat) :
  sql_leb a b ↔ ext_le (canonical_key a) (canonical_key b).
Proof.
  unfold sql_leb, canonical_key.
  destruct (float_key a) as [|p| |], (float_key b) as [|q| |]; simpl;
    try (split; intros H; (done || lia)).
  rewrite Is_true_true, Qle_bool_iff. unfold Qcle; simpl.
  by rewrite !Qred_correct.
Qed.

Global Instance ext_le_refl : Reflexive ext_le.
Proof. intros [|p| |]; simpl; auto using Qcle_refl. Qed.

Global Instance ext_le_trans : Transitive ext_le.
Proof.
  intros [|p| |] [|q| |] [|r| |]; simpl; try lia; eauto using Qcle_trans.
Qed.

Global Instance ext_le_antisym : AntiSymm (=) ext_le.
Proof.
  intros [|p| |] [|q| |]; simpl; try lia; try done.
  intros H1 H2. f_equal. by apply Qcle_antisym.
Qed.

Global Instance ext_le_total : Total ext_le.
Proof.
  intros [|p| |] [|q| |]; simpl; try lia.
  destruct (Qclt_le_dec p q); [left; by apply Qclt_le_weak | by right].
Qed.

Lemma sql_leb_refl (a : pyfloat) : sql_leb a a.
Proof. by apply sql_leb_ext_le. Qed.

Lemma sql_leb_trans (a b c : pyfloat) : sql_leb a b → sql_leb b c → sql_leb a c.
Proof. rewrite !sql_leb_ext_le. apply ext_le_trans. Qed.

Lemma sql_leb_total (a b : pyfloat) : sql_leb a b ∨ sql_leb b a.
Proof. rewrite !sql_leb_ext_le. apply ext_le_total. Qed.

Lemma same_score_canonical_key (a b : pyfloat) :
  same_score a b ↔ canonical_key a = canonical_key b.
Proof.
  unfold same_score. rewrite !sql_leb_ext_le. split.
  - intros [H1 H2]. by apply (anti_symm ext_le).
  - by intros ->.
Qed.

Global Instance similarity_desc_trans : Transitive similarity_desc.
Proof. intros x y z Hxy Hyz. eapply sql_leb_trans; eauto. Qed.

Global Instance ranked_desc_trans : Transitive ranked_desc.
Proof. intros x y z Hxy Hyz. eapply sql_leb_trans; eauto. Qed.

(** Python's [>=] depends on the scores only through their keys. *)
Lemma float_geb_same_score (a b t : pyfloat) :
  same_score a b → float_geb a t = float_geb b t.
Proof.
  intros Hab. pose proof Hab as [H1 H2]. unfold float_geb.
  assert (is_nan a = is_nan b) as ->.
  { apply same_score_canonical_key in Hab. unfold canonical_key in Hab.
    destruct a as [? []|[]|], b as [? []|[]|]; simpl in *; congruence. }
  f_equal. apply eq_bool_prop_intro.
  split; intros H; eapply sql_leb_trans; eauto.
Qed.




(** ** Lists: filtering and truncating ranked lists *)

Lemma StronglySorted_bool_filter {A} (R : relation A) (p : A → bool) (l : list A) :
  StronglySorted R l → StronglySorted R (List.filter p l).
Proof.
  induction 1 as [|x l Hl IH Hx]; simpl; [constructor|].
  destruct (p x); [|done]. constructor; [done|].
  rewrite Forall_forall in Hx |- *. intros y Hy.
  apply Hx. apply list_elem_of_In in Hy. apply filter_In in Hy as [Hy _].
  by apply list_elem_of_In.
Qed.

Lemma StronglySorted_take {A} (R : relation A) (n : nat) (l : list A) :
  StronglySorted R l → StronglySorted R (take n l).
Proof.
  intros Hl. rewrite <- (take_drop n l) in Hl.
  by apply StronglySorted_app_1_l in Hl.
Qed.

Lemma Forall2_bool_filter {A} (E : A → A → Prop) (p : A → bool) (l1 l2 : list A) :
  (∀ x y, E x y → p x = p y) →
  Forall2 E l1 l2 → Forall2 E (List.filter p l1) (List.filter p l2).
Proof.
  intros Hp. induction 1 as [|x y l1 l2 Hxy Hl IH]; simpl; [constructor|].
  rewrite (Hp x y Hxy). destruct (p y); [by constructor | done].
Qed.

Lemma fmap_eq_Forall2 {A B} (f : A → B) (l1 l2 : list A) :
  f <$> l1 = f <$> l2 → Forall2 (λ x y, f x = f y) l1 l2.
Proof.
  revert l2. induction l1 as [|x l1 IH]; intros [|y l2]; csimpl; try done.
  intros [= Hxy Hl]. constructor; auto.
Qed.

Lemma length_bool_filter {A} (p : A → bool) (l : list A) :
  length (List.filter p l) ≤ length l.
Proof. induction l as [|x l IH]; simpl; [lia|]. destruct (p x); simpl; lia. Qed.

(** ** The engine that keeps scan order *)

Lemma insert_desc_Permutation (x : sql_row) (rows : list sql_row) :
  insert_desc x rows ≡ₚ x :: rows.
Proof.
  induction rows as [|y rows IH]; simpl; [done|].
  destruct (sql_leb (snd y) (snd x)); [done|].
  rewrite IH. apply Permutation_swap.
Qed.

Lemma insert_desc_HdRel (z x : sql_row) (rows : list sql_row) :
  similarity_desc z x → HdRel similarity_desc z rows →
  HdRel similarity_desc z (insert_desc x rows).
Proof.
  intros Hzx Hz. destruct rows as [|y rows]; simpl; [by constructor|].
  destruct (sql_leb (snd y) (snd x)); constructor; [done|].
  by inversion Hz.
Qed.

Lemma insert_desc_Sorted (x : sql_row) (rows : list sql_row) :
  Sorted similarity_desc rows → Sorted similarity_desc (insert_desc x rows).
Proof.
  induction 1 as [|y rows Hrows IH Hy]; simpl.
  - repeat constructor.
  - destruct (sql_leb (snd y) (snd x)) eqn:E.
    + constructor; [by constructor|]. constructor.
      unfold similarity_desc. by rewrite E.
    + constructor; [done|]. apply insert_desc_HdRel; [|done].
      unfold similarity_desc.
      destruct (sql_leb_total (snd x) (snd y)) as [H|H]; [done|].
      by rewrite E in H.
Qed.

Lemma scan_order_engine_orders : orders_by_similarity_desc scan_order_engine.
Proof.
  intros rows. unfold scan_order_engine. induction rows as [|x rows [IHp IHs]]; simpl.
  - split; [done | constructor].
  - split; [by rewrite insert_desc_Permutation, IHp|].
    by apply insert_desc_Sorted.
Qed.

(** Two rankings of the same rows carry the same scores, place by place. *)
Lemma sorted_rows_same_scores (l1 l2 : list sql_row) :
  l1 ≡ₚ l2 → Sorted similarity_desc l1 → Sorted similarity_desc l2 →
  Forall2 (λ x y, same_score (snd x) (snd y)) l1 l2.
Proof.
  intros Hp H1 H2.
  set (key := λ x : sql_row, canonical_key (snd x)).
  set (ge := λ a b : ext Qc, ext_le b a).
  assert (Transitive ge) as Htrans.
  { intros a b c Hab Hbc. unfold ge in *. by etrans. }
  assert (AntiSymm (=) ge) as Hanti.
  { intros a b Hab Hba. unfold ge in *. by apply (anti_symm ext_le). }
  assert (∀ l, Sorted similarity_desc l → Sorted ge (key <$> l)) as Hkey.
  { intros l. apply Sorted_fmap. intros x y. unfold similarity_desc, ge, key.
    by rewrite sql_leb_ext_le. }
  assert (key <$> l1 = key <$> l2) as Heq.
  { apply (Sorted_unique ge); auto. by rewrite Hp. }
  apply fmap_eq_Forall2 in Heq.
  eapply Forall2_impl; [done|]. intros x y Hxy.
  by apply same_score_canonical_key.
Qed.

(** ** The similarity query *)

Lemma select_similarity_cons (r : incident_row) (st : table) (qv : floats) :
  select_similarity (r :: st) qv =
    s ← cosine_similarity (vector r) qv;
    rows ← select_similarity st qv;
    Ok ((r, s) :: rows).
Proof.
  unfold select_similarity. simpl.
  by destruct (cosine_similarity (vector r) qv).
Qed.

Lemma cosine_similarity_Ok (a b : floats) :
  length a = length b → ∃ s, cosine_similarity a b = Ok s.
Proof.
  intros Hl. unfold cosine_similarity.
  destruct (dot_length_Ok a b Hl) as (d & ->). simpl. eauto.
Qed.


Lemma select_similarity_Raise (st : table) (qv : floats) :
  Exists (λ r, length (vector r) ≠ length qv) st →
  select_similarity st qv = Raise (ValueError "shapes not aligned").
Proof.
  induction st as [|r st IH]; intros Hex; [by inversion Hex|].
  rewrite select_similarity_cons.
  destruct (decide (length (vector r) = length qv)) as [Hl|Hl].
  - apply Exists_cons in Hex as [Hex|Hex]; [done|]. rewrite IH by done.
    by destruct (cosine_similarity_Ok (vector r) qv Hl) as (s & ->).
  - by rewrite cosine_similarity_shape_mismatch.
Qed.

Section search_facts.
Context (encode : string → floats).

Lemma search_Ok_inv order_by st desc threshold limit res :
  search encode order_by st desc threshold limit = Ok res →
  ∃ rows, select_similarity st (encode desc) = Ok rows ∧
    res = keep_above threshold (take limit (order_by rows)).
Proof.
  unfold search, execute_query.
  destruct (select_similarity st (encode desc)) as [rows|e]; simpl; [|done].
  intros [= <-]. eauto.
Qed.

Lemma search_Ok_intro order_by st desc threshold limit rows :
  select_similarity st (encode desc) = Ok rows →
  search encode order_by st desc threshold limit =
    Ok (keep_above threshold (take limit (order_by rows))).
Proof. unfold search, execute_query. by intros ->. Qed.

Lemma keep_above_ranked threshold rows :
  StronglySorted similarity_desc rows →
  StronglySorted ranked_desc (keep_above threshold rows).
Proof.
  intros Hs. unfold keep_above.
  apply (StronglySorted_fmap _ similarity_desc); [done|].
  by apply StronglySorted_bool_filter.
Qed.

Lemma keep_above_same_scores threshold rows rows' :
  Forall2 (λ x y, same_score (snd x) (snd y)) rows rows' →
  Forall2 (λ i j, same_score (i_similarity i) (i_similarity j))
    (keep_above threshold rows) (keep_above threshold rows').
Proof.
  intros H. unfold keep_above. apply Forall2_fmap.
  apply Forall2_bool_filter; [|done].
  intros x y Hxy. by apply float_geb_same_score.
Qed.


Lemma keep_above_length threshold limit rows :
  length (keep_above threshold (take limit rows)) ≤ limit.
Proof.
  unfold keep_above. rewrite length_fmap.
  etrans; [apply length_bool_filter|]. rewrite length_take. lia.
Qed.

(** The ranking both updaters return, whatever the engine does with rows
    of equal similarity. *)
Lemma search_ranked order_by order_by' st desc threshold limit res :
  orders_by_similarity_desc order_by →
  orders_by_similarity_desc order_by' →
  search encode order_by st desc threshold limit = Ok res →
  StronglySorted ranked_desc res ∧
  ∃ res', search encode order_by' st desc threshold limit = Ok res' ∧
    Forall2 (λ i j, same_score (i_similarity i) (i_similarity j)) res res'.
Proof.
  intros Hob Hob' Hres.
  apply search_Ok_inv in Hres as (rows & Hrows & ->).
  destruct (Hob rows) as [Hp Hs], (Hob' rows) as [Hp' Hs'].
  split.
  - apply keep_above_ranked, StronglySorted_take.
    apply Sorted_StronglySorted; [apply _ | done].
  - eexists. split; [by apply search_Ok_intro|].
    apply keep_above_same_scores, Forall2_take.
    apply sorted_rows_same_scores; [by rewrite Hp, Hp' | done..].
Qed.
End search_facts.

(** ** Claims about the similarity ranker *)




(** The same ranking in the first updater. *)
Lemma basic_search_sorted_by_similarity
    (encode : string → floats)
    (order_by order_by' : list sql_row → list sql_row)
    (st : table) (desc : string) (threshold : Q) (limit : nat)
    (res : list incident) :
  orders_by_similarity_desc order_by →
  orders_by_similarity_desc order_by' →
  JiraCommentUpdater.search_similar_incidents
    encode order_by st desc threshold limit = Ok res →
  StronglySorted ranked_desc res ∧
  ∃ res',
    JiraCommentUpdater.search_similar_incidents
      encode order_by' st desc threshold limit = Ok res' ∧
    Forall2 (λ i j, same_score (i_similarity i) (i_similarity j)) res res'.
Proof. apply search_ranked. Qed.





(** ** The table: inserting *)

Lemma try_except_reraise {S A} (body : prog S A) (st : S) :
  try_except body (λ e, raise e) st = body st.
Proof. unfold try_except, raise. by destruct (body st) as [[a|e] st']. Qed.

Lemma executemany_cons (r : incident_row) (l : list incident_row) (st : table) :
  executemany (r :: l) st =
    if decide (INC r ∈ INC <$> st) then (Raise (ConstraintException (INC r)), st)
    else executemany l (st ++ [r]).
Proof.
  unfold executemany. simpl. unfold mbind, prog_bind, insert_row.
  by destruct (decide (INC r ∈ INC <$> st)).
Qed.

Lemma executemany_app (l1 l2 : list incident_row) (st : table) :
  executemany (l1 ++ l2) st =
    match executemany l1 st with
    | (Ok _, st') => executemany l2 st'
    | (Raise e, st') => (Raise e, st')
    end.
Proof.
  revert st. induction l1 as [|r l1 IH]; intros st; [done|].
  rewrite <- app_comm_cons, !executemany_cons.
  destruct (decide (INC r ∈ INC <$> st)); [done | apply IH].
Qed.

Lemma insertable_cons (st : table) (r : incident_row) (l : list incident_row) :
  insertable st (r :: l) → (INC r ∉ INC <$> st) ∧ insertable (st ++ [r]) l.
Proof.
  intros [Hnd Hfresh]. rewrite fmap_cons in Hnd, Hfresh.
  apply NoDup_cons in Hnd as [Hr Hnd]. split; [apply Hfresh; left|].
  split; [done|]. intros k Hk. rewrite fmap_app, elem_of_app. simpl.
  rewrite list_elem_of_singleton. intros [Hin| ->]; [|done].
  by apply (Hfresh k); [right|].
Qed.

Lemma executemany_insertable (l : list incident_row) (st : table) :
  insertable st l → executemany l st = (Ok tt, st ++ l).
Proof.
  revert st. induction l as [|r l IH]; intros st Hins.
  - by rewrite app_nil_r.
  - apply insertable_cons in Hins as [Hr Hins].
    rewrite executemany_cons, decide_False by done.
    rewrite (IH _ Hins). by rewrite <- app_assoc.
Qed.


(** What a run that returned has done. *)
Lemma executemany_Ok_inv (l : list incident_row) (st st' : table) (u : unit) :
  executemany l st = (Ok u, st') → st' = st ++ l ∧ insertable st l.
Proof.
  revert st. induction l as [|r l IH]; intros st.
  - intros [= _ <-]. rewrite app_nil_r. split; [done|].
    split; [constructor | by intros k Hk; inversion Hk].
  - rewrite executemany_cons. destruct (decide (INC r ∈ INC <$> st)); [done|].
    intros H. apply IH in H as [-> [Hnd Hfresh]].
    split; [by rewrite <- app_assoc|]. split.
    + rewrite fmap_cons. apply NoDup_cons. split; [|done].
      intros Hr. apply (Hfresh _ Hr). rewrite fmap_app, elem_of_app.
      right. simpl. by left.
    + intros k. rewrite fmap_cons, elem_of_cons. intros [->|Hk]; [done|].
      intros Hst. apply (Hfresh _ Hk). rewrite fmap_app, elem_of_app.
      by left.
Qed.


(** The chunks of [insert_incidents], run one after the other, insert the
    records in list order. *)
Lemma for_each_chunks (s n j : nat) (l : list incident_row) (st : table) :
  0 < s → length l ≤ (j + n) * s →
  for_each ((λ k, k * s) <$> seq j n)
    (λ i, executemany (slice i (i + s) l)) st
  = executemany (drop (j * s) l) st.
Proof.
  intros Hs. revert j st. induction n as [|n IH]; intros j st Hl.
  - rewrite drop_ge by lia. done.
  - simpl. unfold mbind, prog_bind.
    assert (executemany (drop (j * s) l) st =
            executemany (take s (drop (j * s) l) ++ drop s (drop (j * s) l)) st)
      as -> by (by rewrite take_drop).
    rewrite executemany_app. unfold slice.
    replace (j * s + s - j * s) with s by lia.
    destruct (executemany (take s (drop (j * s) l)) st) as [[[]|e] st'];
      [|done].
    rewrite drop_drop. replace (j * s + s) with (S j * s) by lia.
    apply IH. lia.
Qed.

Lemma insert_incidents_executemany (incidents : list incident_row) (st : table) :
  ExcelToDBProcessor.insert_incidents incidents st = executemany incidents st.
Proof.
  unfold ExcelToDBProcessor.insert_incidents.
  destruct incidents as [|r l]; [done|].
  rewrite try_except_reraise. unfold range_step.
  rewrite for_each_chunks; [done | unfold ExcelToDBProcessor.batch_size; lia |].
  unfold ExcelToDBProcessor.batch_size.
  pose proof (Nat.div_mod (length (r :: l) + 100 - 1) 100).
  pose proof (Nat.mod_upper_bound (length (r :: l) + 100 - 1) 100). lia.
Qed.

(** ** The ingestion pipeline: preparing *)

Section processor_facts.
Context (generate_embedding : string → floats).

Local Abbreviation prepare_row :=
  (ExcelToDBProcessor.prepare_row generate_embedding).
Local Abbreviation prepare_incident_data :=
  (ExcelToDBProcessor.prepare_incident_data generate_embedding).
Local Abbreviation process_excel_to_db :=
  (ExcelToDBProcessor.process_excel_to_db generate_embedding).

Lemma prepare_row_keys existing_incs dir acc row :
  INC <$> prepare_row existing_incs dir acc row =
    (INC <$> acc) ++ filter (new_key existing_incs) [xl_INC row].
Proof.
  unfold ExcelToDBProcessor.prepare_row.
  rewrite filter_cons, filter_nil.
  destruct (decide (new_key existing_incs (xl_INC row))) as [[Hk Hb]|Hn].
  - rewrite !decide_False by done. by rewrite fmap_app.
  - destruct (decide (xl_INC row ∈ existing_incs)); [by rewrite app_nil_r|].
    destruct (decide (xl_INC row = "" ∨ xl_INC row = "nan"));
      [by rewrite app_nil_r|].
    by destruct Hn.
Qed.

Lemma foldl_prepare_row_keys existing_incs dir acc df :
  INC <$> foldl (prepare_row existing_incs dir) acc df =
    (INC <$> acc) ++ filter (new_key existing_incs) (xl_INC <$> df).
Proof.
  revert acc. induction df as [|row df IH]; intros acc; simpl.
  - by rewrite filter_nil, app_nil_r.
  - rewrite IH, prepare_row_keys, <- app_assoc. f_equal.
    by rewrite <- filter_app.
Qed.

Lemma prepare_incident_data_run df dir st :
  prepare_incident_data df dir st =
    (Ok (foldl (prepare_row (stored_keys st) dir) [] df), st).
Proof. reflexivity. Qed.

Lemma prepare_incident_data_keys df dir st :
  ∃ incidents,
    prepare_incident_data df dir st = (Ok incidents, st) ∧
    INC <$> incidents = new_keys st df.
Proof.
  eexists. split; [apply prepare_incident_data_run|].
  by rewrite foldl_prepare_row_keys.
Qed.


Lemma new_keys_insertable st incidents df :
  INC <$> incidents = new_keys st df →
  NoDup (new_keys st df) → insertable st incidents.
Proof.
  intros Hkeys Hnd. split; [by rewrite Hkeys|].
  intros k. rewrite Hkeys. unfold new_keys.
  rewrite list_elem_of_filter. intros [[Hk _] _].
  unfold stored_keys in Hk. by rewrite elem_of_list_to_set in Hk.
Qed.

Lemma process_excel_to_db_run df dir st :
  process_excel_to_db df dir st =
    executemany (foldl (prepare_row (stored_keys st) dir) [] df) st.
Proof.
  unfold ExcelToDBProcessor.process_excel_to_db.
  rewrite try_except_reraise. unfold mbind, prog_bind.
  rewrite prepare_incident_data_run. apply insert_incidents_executemany.
Qed.



Lemma first_run_completes df dir st :
  NoDup (new_keys st df) →
  ∃ incidents,
    INC <$> incidents = new_keys st df ∧
    process_excel_to_db df dir st = (Ok tt, st ++ incidents).
Proof.
  intros Hnd.
  destruct (prepare_incident_data_keys df dir st) as (incidents & Hprep & Hkeys).
  rewrite prepare_incident_data_run in Hprep. injection Hprep as Hprep.
  exists incidents. split; [done|].
  rewrite process_excel_to_db_run, Hprep.
  apply executemany_insertable. by eapply new_keys_insertable.
Qed.

End processor_facts.

(** ** Claims about the ingestion pipeline and the store *)





(** Every batch falls under one of the two cases. *)
Lemma insert_incidents_outcome (incidents : list incident_row) (st : table) :
  (insertable st incidents ∧
   ExcelToDBProcessor.insert_incidents incidents st = (Ok tt, st ++ incidents)) ∨
  (∃ pre r post,
     incidents = pre ++ r :: post ∧ insertable st pre ∧
     INC r ∈ INC <$> (st ++ pre) ∧
     ExcelToDBProcessor.insert_incidents incidents st
       = (Raise (ConstraintException (INC r)), st ++ pre)).
Proof.
  rewrite insert_incidents_executemany.
  destruct (executemany incidents st) as [[[]|e] st'] eqn:Hrun.
  - left. apply executemany_Ok_inv in Hrun as [-> Hins]. done.
  - right. revert st Hrun. induction incidents as [|r l IH]; intros st; [done|].
    rewrite executemany_cons.
    destruct (decide (INC r ∈ INC <$> st)) as [Hr|Hr].
    + intros [= <- <-]. exists [], r, l. rewrite app_nil_r.
      repeat split; [constructor | by inversion 1 | done].
    + intros Hrun. apply IH in Hrun as (pre & r' & post & -> & Hins & Hr' & ->).
      exists (r :: pre), r', post. rewrite <- !app_assoc in *. simpl in *.
      split; [done|]. split; [|done].
      destruct Hins as [Hnd Hfresh]. split.
      * rewrite fmap_cons. apply NoDup_cons. split; [|done].
        intros Hin. apply (Hfresh _ Hin). rewrite fmap_app, elem_of_app.
        right. by left.
      * intros k. rewrite fmap_cons, elem_of_cons. intros [->|Hk]; [done|].
        intros Hst. apply (Hfresh _ Hk). rewrite fmap_app, elem_of_app.
        by left.
Qed.




(** The first run completes exactly when no new key occurs twice. *)
Lemma first_run_completes_iff
    (generate_embedding : string → floats)
    (df : list excel_row) (json_dir : string) (st : table) :
  (∃ st1,
     ExcelToDBProcessor.process_excel_to_db generate_embedding df json_dir st
       = (Ok tt, st1)) ↔
  NoDup (new_keys st df).
Proof.
  split.
  - intros (st1 & Hrun). rewrite process_excel_to_db_run in Hrun.
    apply executemany_Ok_inv in Hrun as [_ [Hnd _]].
    by rewrite foldl_prepare_row_keys in Hnd.
  - intros Hnd.
    destruct (first_run_completes generate_embedding df json_dir st Hnd)
      as (incidents & _ & Hrun). eauto.
Qed.




(** ** The label dictionaries of the pattern analysis *)

Lemma first_index_lt (k : string) (labels : list string) :
  k ∈ labels → first_index k labels < length labels.
Proof.
  induction labels as [|x labels IH]; [by inversion 1|].
  intros Hk. simpl. destruct (decide (x = k)) as [->|Hne]; [lia|].
  apply elem_of_cons in Hk as [->|Hk]; [done|]. apply IH in Hk. lia.
Qed.

Lemma first_index_app_l (k : string) (l l' : list string) :
  k ∈ l → first_index k (l ++ l') = first_index k l.
Proof.
  induction l as [|x l IH]; [by inversion 1|].
  intros Hk. simpl. destruct (decide (x = k)) as [->|Hne]; [done|].
  apply elem_of_cons in Hk as [->|Hk]; [done|]. by rewrite IH.
Qed.

Lemma first_index_app_r (k : string) (l l' : list string) :
  k ∉ l → first_index k (l ++ l') = length l + first_index k l'.
Proof.
  induction l as [|x l IH]; [done|].
  intros Hk. apply not_elem_of_cons in Hk as [Hne Hk]. simpl.
  rewrite decide_False by done. by rewrite IH.
Qed.

Lemma occurrences_app (k : string) (l l' : list string) :
  occurrences k (l ++ l') = occurrences k l + occurrences k l'.
Proof. unfold occurrences. by rewrite filter_app, length_app. Qed.

Lemma occurrences_pos (k : string) (labels : list string) :
  0 < occurrences k labels ↔ k ∈ labels.
Proof.
  unfold occurrences. induction labels as [|x labels IH].
  - rewrite filter_nil. simpl. split; [lia | by inversion 1].
  - rewrite filter_cons, elem_of_cons.
    destruct (decide (x = k)) as [->|Hne]; simpl.
    + split; [by left | lia].
    + rewrite IH. split; [by right | by intros [->|?]].
Qed.

Section label_dict_facts.
Context {V : Type}.
Implicit Types (d : label_dict V) (k : string) (v : V).

Lemma dict_keys_append d k v :
  dict_keys (dict_append d k v) =
    if decide (k ∈ dict_keys d) then dict_keys d else dict_keys d ++ [k].
Proof.
  unfold dict_keys. induction d as [|[k' vs] d IH]; csimpl; [done|].
  - destruct (decide (k' = k)) as [->|Hne]; csimpl.
    + by rewrite decide_True by (by left).
    + rewrite IH. destruct (decide (k ∈ fst <$> d)) as [Hin|Hin].
      * by rewrite decide_True by (by right).
      * rewrite decide_False; [done|].
        intros Hk. by apply elem_of_cons in Hk as [->|Hk].
Qed.

Lemma dict_get_append d k v k' :
  dict_get (dict_append d k v) k' =
    if decide (k = k') then dict_get d k ++ [v] else dict_get d k'.
Proof.
  induction d as [|[k0 vs] d IH]; simpl.
  - destruct (decide (k = k')); done.
  - destruct (decide (k0 = k)) as [->|Hne]; simpl.
    + destruct (decide (k = k')); done.
    + rewrite IH. destruct (decide (k0 = k')) as [->|Hne'].
      * by rewrite decide_False by done.
      * done.
Qed.
End label_dict_facts.

Lemma group_by_snoc (label : incident → string) (l : list incident) (i : incident) :
  group_by label (l ++ [i]) = dict_append (group_by label l) (label i) i.
Proof. unfold group_by. by rewrite foldl_app. Qed.

Lemma group_by_length (label : incident → string) (l : list incident) (k : string) :
  length (dict_get (group_by label l) k) = occurrences k (label <$> l).
Proof.
  induction l as [|i l IH] using rev_ind; [done|].
  rewrite group_by_snoc, dict_get_append, fmap_app, occurrences_app.
  unfold occurrences at 2. simpl. rewrite filter_cons, filter_nil.
  destruct (decide (label i = k)) as [->|Hne].
  - rewrite length_app, IH. simpl. done.
  - rewrite IH. simpl. lia.
Qed.

Lemma group_by_keys_elem (label : incident → string) (l : list incident) (k : string) :
  k ∈ dict_keys (group_by label l) ↔ k ∈ label <$> l.
Proof.
  induction l as [|i l IH] using rev_ind; [done|].
  rewrite group_by_snoc, dict_keys_append, fmap_app, elem_of_app. simpl.
  rewrite list_elem_of_singleton.
  destruct (decide (label i ∈ dict_keys (group_by label l))) as [Hin|Hin].
  - rewrite IH. split; [by left|]. intros [?| ->]; [done|]. by apply IH.
  - by rewrite elem_of_app, list_elem_of_singleton, IH.
Qed.

Lemma StronglySorted_on {A} (R R' : relation A) (l : list A) :
  (∀ a b, a ∈ l → b ∈ l → R a b → R' a b) →
  StronglySorted R l → StronglySorted R' l.
Proof.
  intros HR Hl. induction Hl as [|x l Hl IH Hx]; constructor.
  - apply IH. intros a b Ha Hb. apply HR; by right.
  - rewrite Forall_forall in Hx |- *. intros y Hy.
    apply HR; [by left | by right | by apply Hx].
Qed.

(** The keys of the dictionary stand in the order of their first occurrence
    in the input. *)
Lemma group_by_keys_order (label : incident → string) (l : list incident) :
  StronglySorted
    (λ a b, first_index a (label <$> l) < first_index b (label <$> l))
    (dict_keys (group_by label l)).
Proof.
  induction l as [|i l IH] using rev_ind; [constructor|].
  rewrite group_by_snoc, dict_keys_append, fmap_app. simpl.
  assert (StronglySorted
            (λ a b, first_index a ((label <$> l) ++ [label i])
                    < first_index b ((label <$> l) ++ [label i]))
            (dict_keys (group_by label l))) as Hold.
  { eapply StronglySorted_on; [|exact IH]. intros a b Ha Hb Hab.
    apply group_by_keys_elem in Ha, Hb.
    by rewrite !first_index_app_l. }
  destruct (decide (label i ∈ dict_keys (group_by label l))) as [Hin|Hin];
    [done|].
  apply StronglySorted_app_2; [|done|repeat constructor].
  intros a b Ha Hb. apply list_elem_of_singleton in Hb as ->.
  apply group_by_keys_elem in Ha.
  rewrite first_index_app_l by done.
  rewrite first_index_app_r by (by rewrite <- group_by_keys_elem).
  pose proof (first_index_lt a _ Ha). lia.
Qed.

(** ** max over the keys of a dictionary *)

Lemma foldl_max_first {A} (key : A → nat) (x : A) (xs : list A) :
  let m := foldl (λ best y, if key best <? key y then y else best) x xs in
  ∃ l1 l2,
    x :: xs = l1 ++ m :: l2 ∧
    Forall (λ y, key y < key m) l1 ∧
    Forall (λ y, key y ≤ key m) l2.
Proof.
  induction xs as [|y xs IH] using rev_ind; simpl.
  - exists [], []. repeat split; constructor.
  - rewrite foldl_app. simpl. simpl in IH.
    destruct IH as (l1 & l2 & Heq & H1 & H2).
    set (m := foldl (λ best y, if key best <? key y then y else best) x xs) in *.
    destruct (key m <? key y) eqn:E.
    + apply Nat.ltb_lt in E. exists (x :: xs), []. split; [done|].
      split; [|constructor]. rewrite Heq, Forall_app, Forall_cons.
      split; [|split; [done|]].
      * eapply Forall_impl; [exact H1|]. simpl. lia.
      * eapply Forall_impl; [exact H2|]. simpl. lia.
    + apply Nat.ltb_ge in E. exists l1, (l2 ++ [y]).
      split; [by rewrite app_comm_cons, Heq, <- app_assoc|].
      split; [done|]. rewrite Forall_app, Forall_singleton. done.
Qed.

Lemma most_common_spec (label : incident → string) (l : list incident) :
  l ≠ [] →
  ∃ m, most_common (group_by label l) = Ok m ∧
       earliest_most_common m (label <$> l).
Proof.
  intros Hl. unfold most_common, py_max.
  pose proof (group_by_keys_order label l) as Hord.
  pose proof (group_by_keys_elem label l) as Helem.
  pose proof (group_by_length label l) as Hlen.
  destruct (dict_keys (group_by label l)) as [|x xs] eqn:Hkeys.
  { destruct l as [|i l]; [done|]. exfalso.
    assert (label i ∈ label <$> i :: l) as Hi by (by left).
    apply Helem in Hi. by inversion Hi. }
  eexists. split; [done|].
  destruct (foldl_max_first (λ k, length (dict_get (group_by label l) k)) x xs)
    as (l1 & l2 & Heq & H1 & H2).
  simpl in Heq, H1, H2.
  set (m := foldl _ x xs) in *.
  rewrite Heq in Hord, Helem.
  rewrite Forall_forall in H1, H2.
  assert (m ∈ label <$> l) as Hm.
  { apply Helem. rewrite elem_of_app. right. by left. }
  split; [done|]. split.
  - intros k. destruct (decide (k ∈ label <$> l)) as [Hk|Hk].
    + rewrite <- !Hlen. apply Helem in Hk.
      apply elem_of_app in Hk as [Hk|Hk]; [apply H1 in Hk; lia|].
      apply elem_of_cons in Hk as [->|Hk]; [done|]. by apply H2.
    + assert (occurrences k (label <$> l) = 0) as ->; [|lia].
      pose proof (occurrences_pos k (label <$> l)) as Hpos.
      destruct (occurrences k (label <$> l)); [done|].
      exfalso. apply Hk. apply Hpos. lia.
  - intros k Hne Hocc.
    assert (k ∈ label <$> l) as Hk.
    { apply occurrences_pos. rewrite Hocc. by apply occurrences_pos. }
    apply Helem in Hk.
    apply elem_of_app in Hk as [Hk|Hk].
    { apply H1 in Hk. rewrite !Hlen in Hk. lia. }
    apply elem_of_cons in Hk as [->|Hk]; [done|].
    apply StronglySorted_app_1_r in Hord.
    apply StronglySorted_cons in Hord as [Hord _].
    rewrite Forall_forall in Hord. by apply Hord.
Qed.

Lemma py_min_Qmin (a b : Q) : (py_min a b == Qmin a b)%Q.
Proof.
  unfold py_min. destruct (Qle_bool a b) eqn:E.
  - apply Qle_bool_iff in E. by rewrite Q.min_l.
  - assert (b <= a)%Q as Hba.
    { destruct (Qlt_le_dec b a) as [H|H]; [by apply Qlt_le_weak|].
      apply Qle_bool_iff in H. congruence. }
    by rewrite Q.min_r.
Qed.

(** ** Claims about the pattern analyzer *)

Lemma enhanced_analysis_run (similar_incidents : list incident) (desc : string) :
  similar_incidents ≠ [] →
  ∃ a,
    EnhancedJiraCommentUpdater.analyze_historical_patterns similar_incidents desc
      = Ok a ∧
    earliest_most_common (EnhancedJiraCommentUpdater.suggested_assignee a)
      (get_Assignee <$> similar_incidents) ∧
    earliest_most_common (EnhancedJiraCommentUpdater.suggested_group a)
      (get_Group <$> similar_incidents) ∧
    EnhancedJiraCommentUpdater.confidence_score a =
      if Config.MIN_INCIDENTS_FOR_ANALYSIS <=? length similar_incidents
      then py_min (8 # 10) (count_times_015 (length similar_incidents))
      else 3 # 10.
Proof.
  intros Hne.
  destruct (most_common_spec get_Assignee similar_incidents Hne) as (ma & Hma & Ha).
  destruct (most_common_spec get_Group similar_incidents Hne) as (mg & Hmg & Hg).
  unfold EnhancedJiraCommentUpdater.analyze_historical_patterns.
  destruct similar_incidents as [|i l]; [done|].
  rewrite Hma. cbn [mbind result_bind]. rewrite Hmg. cbn [mbind result_bind].
  eexists. split; [done|]. by cbn.
Qed.

Lemma basic_analysis_run (similar_incidents : list incident) (desc : string) :
  similar_incidents ≠ [] →
  ∃ a ma mg,
    JiraCommentUpdater.analyze_historical_patterns similar_incidents desc
      = Ok a ∧
    earliest_most_common ma (get_Assignee <$> similar_incidents) ∧
    earliest_most_common mg (get_Group <$> similar_incidents) ∧
    JiraCommentUpdater.similar_patterns a =
      [ "Most incidents handled by: " +:+ ma;
        "Most incidents in group: " +:+ mg;
        "Total similar incidents found: " +:+ pretty (length similar_incidents) ] ∧
    JiraCommentUpdater.confidence_score a =
      if 3 <=? length similar_incidents
      then py_min (8 # 10) (count_times_015 (length similar_incidents))
      else 0%Q.
Proof.
  intros Hne.
  destruct (most_common_spec get_Assignee similar_incidents Hne) as (ma & Hma & Ha).
  destruct (most_common_spec get_Group similar_incidents Hne) as (mg & Hmg & Hg).
  unfold JiraCommentUpdater.analyze_historical_patterns.
  destruct similar_incidents as [|i l]; [done|].
  rewrite Hma. cbn [mbind result_bind]. rewrite Hmg. cbn [mbind result_bind].
  eexists _, ma, mg. split; [done|]. by cbn.
Qed.

(** C6 (as amended).  For every non-empty list of matches,
    [analyze_historical_patterns] of the enhanced updater returns
    [confidence_score = min(0.8, matchCount * 0.15)] when the match count
    is at least [Config.MIN_INCIDENTS_FOR_ANALYSIS] (3) and [0.3] when it
    is below; for the empty list it returns [0.0].  The first updater
    returns the same score from three matches on and [0.0] below. *)
Theorem confidence_score_by_match_count
    (similar_incidents : list incident) (desc : string) :
  let n := length similar_incidents in
  (∃ a,
     EnhancedJiraCommentUpdater.analyze_historical_patterns
       similar_incidents desc = Ok a ∧
     (n = 0 → EnhancedJiraCommentUpdater.confidence_score a = 0%Q) ∧
     (0 < n < Config.MIN_INCIDENTS_FOR_ANALYSIS →
        EnhancedJiraCommentUpdater.confidence_score a = (3 # 10)%Q) ∧
     (Config.MIN_INCIDENTS_FOR_ANALYSIS ≤ n →
        (EnhancedJiraCommentUpdater.confidence_score a
         == Qmin (8 # 10) (count_times_015 n))%Q)) ∧
  (∃ a,
     JiraCommentUpdater.analyze_historical_patterns
       similar_incidents desc = Ok a ∧
     (n < 3 → JiraCommentUpdater.confidence_score a = 0%Q) ∧
     (3 ≤ n →
        (JiraCommentUpdater.confidence_score a
         == Qmin (8 # 10) (count_times_015 n))%Q)).
Proof.
  intros n. subst n. destruct (decide (similar_incidents = [])) as [->|Hne].
  - split; eexists; (split; [reflexivity|]); simpl;
      unfold Config.MIN_INCIDENTS_FOR_ANALYSIS; repeat split; (done || lia).
  - split.
    + destruct (enhanced_analysis_run similar_incidents desc Hne)
        as (a & Ha & _ & _ & Hc).
      exists a. split; [done|]. rewrite Hc. split; [|split].
      * intros Hn. destruct similar_incidents; [done | discriminate Hn].
      * intros [_ Hn]. apply Nat.leb_gt in Hn. by rewrite Hn.
      * intros Hn. apply Nat.leb_le in Hn. rewrite Hn. apply py_min_Qmin.
    + destruct (basic_analysis_run similar_incidents desc Hne)
        as (a & ma & mg & Ha & _ & _ & _ & Hc).
      exists a. split; [done|]. rewrite Hc. split.
      * intros Hn. apply Nat.leb_gt in Hn. by rewrite Hn.
      * intros Hn. apply Nat.leb_le in Hn. rewrite Hn. apply py_min_Qmin.
Qed.

(** C6 (as stated, refuted).  The empty list has fewer matches than the
    minimum, and its confidence is [0.0], not [0.3]. *)
Lemma empty_matches_confidence_zero :
  length ([] : list incident) < Config.MIN_INCIDENTS_FOR_ANALYSIS ∧
  ∃ a,
    EnhancedJiraCommentUpdater.analyze_historical_patterns [] "UI is not loading"
      = Ok a ∧
    EnhancedJiraCommentUpdater.confidence_score a = 0%Q ∧
    ¬ (EnhancedJiraCommentUpdater.confidence_score a == 3 # 10)%Q.
Proof.
  split; [unfold Config.MIN_INCIDENTS_FOR_ANALYSIS; simpl; lia|].
  eexists. split; [reflexivity|]. split; [reflexivity|]. simpl. intros H.
  discriminate H.
Qed.

(** C9.  For every non-empty list of matches, the assignee and the group
    that [analyze_historical_patterns] suggests are most frequent labels
    of the list, and whenever another label is as frequent, the suggested
    one is the one that occurs first in the list. *)
Theorem suggested_label_is_earliest_most_common
    (similar_incidents : list incident) (desc : string) :
  similar_incidents ≠ [] →
  ∃ a,
    EnhancedJiraCommentUpdater.analyze_historical_patterns
      similar_incidents desc = Ok a ∧
    earliest_most_common (EnhancedJiraCommentUpdater.suggested_assignee a)
      (get_Assignee <$> similar_incidents) ∧
    earliest_most_common (EnhancedJiraCommentUpdater.suggested_group a)
      (get_Group <$> similar_incidents).
Proof.
  intros Hne.
  destruct (enhanced_analysis_run similar_incidents desc Hne)
    as (a & Ha & Hassignee & Hgroup & _).
  eauto.
Qed.

(** At four matches where [jack] and [xyz] occur twice each. *)
Lemma suggested_label_is_earliest_most_common_witness :
  let matches := [ Sample.match_ "INC1" "jack" "it-ops";
                   Sample.match_ "INC2" "xyz" "app-dev";
                   Sample.match_ "INC3" "xyz" "app-dev";
                   Sample.match_ "INC4" "jack" "it-ops" ] in
  ∃ a,
    EnhancedJiraCommentUpdater.analyze_historical_patterns
      matches "UI is not loading" = Ok a ∧
    earliest_most_common (EnhancedJiraCommentUpdater.suggested_assignee a)
      (get_Assignee <$> matches) ∧
    earliest_most_common (EnhancedJiraCommentUpdater.suggested_group a)
      (get_Group <$> matches).
Proof.
  intros matches.
  apply (suggested_label_is_earliest_most_common matches "UI is not loading").
  discriminate.
Defined.

Example tie_goes_to_the_first_label :
  (a ← EnhancedJiraCommentUpdater.analyze_historical_patterns
         [ Sample.match_ "INC1" "jack" "it-ops";
           Sample.match_ "INC2" "xyz" "app-dev";
           Sample.match_ "INC3" "xyz" "app-dev";
           Sample.match_ "INC4" "jack" "it-ops" ] "UI is not loading";
   Ok (EnhancedJiraCommentUpdater.suggested_assignee a,
       EnhancedJiraCommentUpdater.suggested_group a,
       EnhancedJiraCommentUpdater.patterns a))
  = Ok ("jack", "it-ops",
        [ "Most incidents handled by: jack";
          "Most incidents in group: it-ops";
          "Total similar incidents found: 4" ]).
Proof. vm_compute. reflexivity. Qed.

(** ** batch_process_issues *)

Section batch_facts.
Context {world : Type} (process_jira_issue : string → prog world bool).

Local Abbreviation batch_loop :=
  (EnhancedJiraCommentUpdater.batch_loop world process_jira_issue).

(** One turn of the loop never raises: it records the outcome. *)
Lemma batch_loop_cons k keys results w :
  batch_loop (k :: keys) results w =
    batch_loop keys
      (<[k := recorded (fst (process_jira_issue k w))]> results)
      (snd (process_jira_issue k w)).
Proof.
  simpl. unfold mbind, prog_bind, try_except, mret, prog_ret.
  by destruct (process_jira_issue k w) as [[success|e] w1].
Qed.

Lemma batch_loop_spec keys results w :
  ∃ results' w',
    batch_loop keys results w = (Ok results', w') ∧
    dom results' = dom results ∪ list_to_set keys ∧
    (∀ k, k ∉ keys → results' !! k = results !! k) ∧
    (∀ k b, k ∈ keys →
       (∀ w0, recorded (fst (process_jira_issue k w0)) = b) →
       results' !! k = Some b).
Proof.
  revert results w. induction keys as [|k0 keys IH]; intros results w.
  - exists results, w. split; [done|].
    split; [by rewrite list_to_set_nil, (right_id_L ∅ (∪))|].
    split; [done|]. intros k b Hk. by inversion Hk.
  - rewrite batch_loop_cons.
    destruct (IH (<[k0 := recorded (fst (process_jira_issue k0 w))]> results)
                 (snd (process_jira_issue k0 w)))
      as (results' & w' & Hrun & Hdom & Hother & Hin).
    exists results', w'. split; [done|]. split; [|split].
    + rewrite Hdom, dom_insert_L, list_to_set_cons.
      by rewrite (comm_L (∪) {[k0]} (dom results)), <- (assoc_L (∪)).
    + intros k Hk. apply not_elem_of_cons in Hk as [Hne Hk].
      rewrite (Hother k Hk). by apply lookup_insert_ne.
    + intros k b Hk Hb. destruct (decide (k ∈ keys)) as [Hk'|Hk'].
      * by apply Hin.
      * apply elem_of_cons in Hk as [->|Hk]; [|done].
        rewrite (Hother k0 Hk'), lookup_insert_eq. by rewrite Hb.
Qed.
End batch_facts.


Example batch_process_issues_sample :
  EnhancedJiraCommentUpdater.batch_process_issues (list string) Sample.process
    ["PROJ-1"; "PROJ-3"; "PROJ-2"; "PROJ-4"; "PROJ-1"] []
  = (Ok (<["PROJ-1" := true]> (<["PROJ-4" := true]> (<["PROJ-2" := false]>
           (<["PROJ-3" := false]> (<["PROJ-1" := true]> ∅))))),
     ["PROJ-1"; "PROJ-4"; "PROJ-1"]).
Proof. reflexivity. Qed.

(** * Further properties *)

(** ** cosine_similarity as a function of its vectors *)


Lemma dot_comm (a b : floats) (d d' : Q) :
  dot a b = Ok d → dot b a = Ok d' → (d == d')%Q.
Proof.
  revert b d d'. induction a as [|x a IH]; intros [|y b] d d'; simpl; try done.
  - by intros [= <-] [= <-].
  - rewrite !result_bind_Ok. intros (r & Hr & [= <-]) (r' & Hr' & [= <-]).
    rewrite (IH _ _ _ Hr Hr'). ring.
Qed.



Lemma same_score_refl (s : pyfloat) : same_score s s.
Proof. split; apply sql_leb_refl. Qed.

Lemma same_score_sym (s s' : pyfloat) : same_score s s' → same_score s' s.
Proof. by intros [H1 H2]. Qed.


Lemma signed_square_wd (x x' y y' : Q) :
  (x == x')%Q → (y == y')%Q → (signed_square x y == signed_square x' y')%Q.
Proof. intros Hx Hy. unfold signed_square. by rewrite Hx, Hy. Qed.

(** The quotient depends on its operands only up to equality of numbers. *)
Lemma float_div_wd (x x' y y' : Q) :
  (x == x')%Q → (y == y')%Q →
  same_score (float_div x (Sqrt y)) (float_div x' (Sqrt y')).
Proof.
  intros Hx Hy. unfold float_div, root_is_zero, Qneg_bool; simpl.
  rewrite (Qeqb_comp _ _ Hy 0%Q 0%Q (Qeq_refl 0%Q)).
  rewrite (Qeqb_comp _ _ Hx 0%Q 0%Q (Qeq_refl 0%Q)).
  rewrite (Qleb_comp 0%Q 0%Q (Qeq_refl 0%Q) _ _ Hx).
  destruct (Qeq_bool y' 0); [apply same_score_refl|].
  unfold same_score, sql_leb; simpl.
  rewrite !Is_true_true, !Qle_bool_iff, (signed_square_wd _ _ _ _ Hx Hy).
  split; lra.
Qed.













(** X3.  [cosine_similarity] does not depend on the order of its
    arguments: both orders give equal scores, or both raise the same
    error. *)
Theorem cosine_similarity_symmetric (a b : floats) :
  same_outcome (cosine_similarity a b) (cosine_similarity b a).
Proof.
  destruct (decide (length a = length b)) as [Hl|Hl].
  - destruct (dot_length_Ok a b Hl) as (d & Hd).
    destruct (dot_length_Ok b a (eq_sym Hl)) as (d' & Hd').
    unfold cosine_similarity. rewrite Hd, Hd'. simpl.
    apply float_div_wd; [by eapply dot_comm | ring].
  - rewrite !cosine_similarity_shape_mismatch by congruence. done.
Qed.



(** ** The similarity query as a function of its parameters *)

Lemma select_similarity_rows (st : table) (qv : floats) (rows : list sql_row) :
  select_similarity st qv = Ok rows →
  fst <$> rows = st ∧
  Forall (λ row, cosine_similarity (vector (fst row)) qv = Ok (snd row)) rows.
Proof.
  revert rows. induction st as [|r st IH]; intros rows.
  - intros [= <-]. split; [done | constructor].
  - rewrite select_similarity_cons.
    destruct (cosine_similarity (vector r) qv) as [s|e] eqn:Hs; [|done].
    simpl. destruct (select_similarity st qv) as [rows'|e]; [|done].
    simpl. intros [= <-]. destruct (IH rows' eq_refl) as [Hfst Hall].
    split; [by rewrite fmap_cons, Hfst | by constructor].
Qed.

Lemma bool_filter_sublist {A} (p : A → bool) (l : list A) :
  List.filter p l `sublist_of` l.
Proof.
  induction l as [|x l IH]; simpl; [done|].
  destruct (p x); [by apply sublist_skip | by apply sublist_cons].
Qed.


Lemma bool_filter_prefix {A} (p : A → bool) (l1 l2 : list A) :
  l1 `prefix_of` l2 → List.filter p l1 `prefix_of` List.filter p l2.
Proof. intros [k ->]. rewrite List.filter_app. by eexists. Qed.


















(** X9.  Every match is a stored incident with its own score, and when
    the stored keys are distinct no incident is returned twice. *)
Theorem search_returns_stored_incidents_once
    (encode : string → floats) (order_by : list sql_row → list sql_row)
    (st : table) (desc : string) (threshold : option Q) (limit : option nat)
    (res : list incident) :
  orders_by_similarity_desc order_by →
  NoDup (INC <$> st) →
  EnhancedJiraCommentUpdater.search_similar_incidents
    encode order_by st desc threshold limit = Ok res →
  NoDup (i_INC <$> res) ∧
  ∀ i, i ∈ res →
    ∃ r, r ∈ st ∧
         cosine_similarity (vector r) (encode desc) = Ok (i_similarity i) ∧
         i = incident_of_row (r, i_similarity i).
Proof.
  intros Hob Hnd Hres. apply search_Ok_inv in Hres as (rows & Hrows & ->).
  destruct (select_similarity_rows st (encode desc) rows Hrows) as [Hfst Hcos].
  destruct (Hob rows) as [Hp Hs].
  set (k := default Config.MAX_SIMILAR_INCIDENTS limit).
  set (p := λ row : sql_row,
         float_geb (snd row)
           (float_of_Q (default Config.SIMILARITY_THRESHOLD threshold))).
  assert (List.filter p (take k (order_by rows)) `sublist_of` order_by rows)
    as Hsub.
  { etrans; [apply bool_filter_sublist | apply sublist_take]. }
  unfold keep_above. fold k p. split.
  - rewrite <- list_fmap_compose.
    pose proof (fmap_sublist (i_INC ∘ incident_of_row) _ _ Hsub) as Hsub'.
    eapply sublist_NoDup; [|exact Hsub'].
    rewrite Hp.
    change (i_INC ∘ incident_of_row) with (INC ∘ @fst incident_row pyfloat).
    rewrite list_fmap_compose. by subst st.
  - intros i Hi. apply list_elem_of_fmap in Hi as ([r s] & -> & Hrow).
    eapply elem_of_sublist in Hrow; [|exact Hsub]. rewrite Hp in Hrow.
    exists r. rewrite Forall_forall in Hcos.
    split; [|split; [by apply (Hcos _ Hrow) | done]].
    rewrite <- Hfst. apply list_elem_of_fmap. by exists (r, s).
Qed.

Lemma search_returns_stored_incidents_once_witness :
  ∃ res,
    EnhancedJiraCommentUpdater.search_similar_incidents
      Sample.embed scan_order_engine Sample.table_abc "database is down"
      None None = Ok res ∧
    NoDup (i_INC <$> res) ∧
    ∀ i, i ∈ res →
      ∃ r, r ∈ Sample.table_abc ∧
           cosine_similarity (vector r) (Sample.embed "database is down")
             = Ok (i_similarity i) ∧
           i = incident_of_row (r, i_similarity i).
Proof.
  eexists. split; [vm_compute; reflexivity|].
  apply (search_returns_stored_incidents_once Sample.embed scan_order_engine
           Sample.table_abc "database is down" None None).
  - apply scan_order_engine_orders.
  - vm_compute. repeat constructor; intros Hin; repeat
      (apply elem_of_cons in Hin as [Hin|Hin]; [discriminate|]);
      by inversion Hin.
  - vm_compute. reflexivity.
Defined.

(** ** The table under the ingestion pipeline *)

Lemma insertable_NoDup (st : table) (l : list incident_row) :
  NoDup (INC <$> st) → insertable st l → NoDup (INC <$> (st ++ l)).
Proof.
  intros Hst [Hl Hfresh]. rewrite fmap_app. apply NoDup_app.
  split; [done|]. split; [|done]. intros k Hk Hk'. by apply (Hfresh k).
Qed.

(** Whatever the outcome, an insertion has appended a front part of the
    batch that the table could take. *)
Lemma insert_incidents_appends (incidents : list incident_row) (st : table) :
  ∃ pre post,
    incidents = pre ++ post ∧ insertable st pre ∧
    snd (ExcelToDBProcessor.insert_incidents incidents st) = st ++ pre.
Proof.
  destruct (insert_incidents_outcome incidents st)
    as [[Hins ->]|(pre & r & post & -> & Hins & _ & ->)].
  - exists incidents, []. by rewrite app_nil_r.
  - by exists pre, (r :: post).
Qed.

Section pipeline_facts.
Context (generate_embedding : string → floats).

Local Abbreviation process_excel_to_db :=
  (ExcelToDBProcessor.process_excel_to_db generate_embedding).

Lemma process_excel_to_db_appends df dir st :
  ∃ pre,
    insertable st pre ∧
    (∀ k, k ∈ INC <$> pre → k ∈ new_keys st df) ∧
    snd (process_excel_to_db df dir st) = st ++ pre.
Proof.
  rewrite process_excel_to_db_run, <- insert_incidents_executemany.
  destruct (insert_incidents_appends
              (foldl (ExcelToDBProcessor.prepare_row generate_embedding
                        (stored_keys st) dir) [] df) st)
    as (pre & post & Heq & Hins & ->).
  exists pre. split; [done|]. split; [|done].
  intros k Hk. unfold new_keys.
  rewrite <- (app_nil_l (filter _ _)).
  change [] with (INC <$> @nil incident_row).
  rewrite <- (foldl_prepare_row_keys generate_embedding _ dir), Heq, fmap_app.
  apply elem_of_app. by left.
Qed.
End pipeline_facts.

(** X11.  The keys of the table stay distinct under [insert_incidents] and
    under a whole run of the pipeline, whether the call returns or
    raises. *)
Theorem stored_keys_stay_distinct
    (generate_embedding : string → floats)
    (incidents : list incident_row) (df : list excel_row) (json_dir : string)
    (st : table) :
  NoDup (INC <$> st) →
  NoDup (INC <$> snd (ExcelToDBProcessor.insert_incidents incidents st)) ∧
  NoDup (INC <$> snd (ExcelToDBProcessor.process_excel_to_db
                        generate_embedding df json_dir st)).
Proof.
  intros Hst. split.
  - destruct (insert_incidents_appends incidents st)
      as (pre & post & _ & Hins & ->).
    by apply insertable_NoDup.
  - destruct (process_excel_to_db_appends generate_embedding df json_dir st)
      as (pre & Hins & _ & ->).
    by apply insertable_NoDup.
Qed.

Lemma stored_keys_stay_distinct_witness :
  let st := [Sample.row "INC7" "database is down" "jack" "app-dev" [1; 0]%Q] in
  let df := [ Sample.xl "INC8" "printer jam" "xyz" "it-ops";
              Sample.xl "INC8" "printer jam again" "xyz" "it-ops";
              Sample.xl "INC9" "disk full" "xyz" "it-ops" ] in
  NoDup (INC <$> snd (ExcelToDBProcessor.insert_incidents st st)) ∧
  NoDup (INC <$> snd (ExcelToDBProcessor.process_excel_to_db
                        Sample.embed df "out" st)).
Proof.
  intros st df.
  apply (stored_keys_stay_distinct Sample.embed st df "out" st).
  vm_compute. apply NoDup_singleton.
Defined.

(** X12.  The pipeline only appends: whether it returns or raises, the
    rows stored before are still there, unchanged and in place, and every
    row added carries a key that was new in the DataFrame. *)
Theorem pipeline_only_appends
    (generate_embedding : string → floats)
    (df : list excel_row) (json_dir : string) (st : table) :
  ∃ added,
    snd (ExcelToDBProcessor.process_excel_to_db
           generate_embedding df json_dir st) = st ++ added ∧
    (∀ r, r ∈ added → INC r ∈ new_keys st df) ∧
    (∀ i r, st !! i = Some r →
       snd (ExcelToDBProcessor.process_excel_to_db
              generate_embedding df json_dir st) !! i = Some r).
Proof.
  destruct (process_excel_to_db_appends generate_embedding df json_dir st)
    as (pre & Hins & Hkeys & Heq).
  exists pre. split; [done|]. split.
  - intros r Hr. apply Hkeys, list_elem_of_fmap. by exists r.
  - intros i r Hi. rewrite Heq. by apply lookup_app_l_Some.
Qed.

(** X13.  After a run that completed, every row of the DataFrame that has a
    key is found by [get_existing_incidents], and the stored keys are the
    ones stored before together with the new keys of the DataFrame. *)
Theorem completed_run_stores_every_key
    (generate_embedding : string → floats)
    (df : list excel_row) (json_dir : string) (st st1 : table) :
  ExcelToDBProcessor.process_excel_to_db generate_embedding df json_dir st
    = (Ok tt, st1) →
  ∃ existing_incs,
    ExcelToDBProcessor.get_existing_incidents st1 = (Ok existing_incs, st1) ∧
    existing_incs = stored_keys st ∪ list_to_set (new_keys st df) ∧
    ∀ row, row ∈ df → xl_INC row ≠ "" → xl_INC row ≠ "nan" →
           xl_INC row ∈ existing_incs.
Proof.
  intros Hrun. rewrite process_excel_to_db_run in Hrun.
  apply executemany_Ok_inv in Hrun as [-> _].
  eexists. split; [reflexivity|].
  assert (list_to_set
            (INC <$> st ++ foldl (ExcelToDBProcessor.prepare_row
                                    generate_embedding (stored_keys st)
                                    json_dir) [] df)
          = stored_keys st ∪ list_to_set (new_keys st df)) as Heq.
  { rewrite fmap_app, list_to_set_app_L, foldl_prepare_row_keys. done. }
  split; [exact Heq|]. rewrite Heq.
  intros row Hrow Hne Hnan.
  destruct (decide (xl_INC row ∈ stored_keys st)) as [Hin|Hin].
  - apply elem_of_union. by left.
  - apply elem_of_union. right. apply elem_of_list_to_set.
    unfold new_keys. apply list_elem_of_filter. split.
    + split; [done|]. by intros [?|?].
    + apply list_elem_of_fmap. by exists row.
Qed.

Lemma completed_run_stores_every_key_witness :
  let df := [ Sample.xl "INC1" "database is down" "jack" "app-dev";
              Sample.xl "INC2" "" "xyz" "app-dev" ] in
  ∃ existing_incs,
    ExcelToDBProcessor.get_existing_incidents Sample.table_with_blank
      = (Ok existing_incs, Sample.table_with_blank) ∧
    existing_incs = stored_keys [] ∪ list_to_set (new_keys [] df) ∧
    ∀ row, row ∈ df → xl_INC row ≠ "" → xl_INC row ≠ "nan" →
           xl_INC row ∈ existing_incs.
Proof.
  intros df.
  apply (completed_run_stores_every_key Sample.embed df "out" []
           Sample.table_with_blank).
  vm_compute. reflexivity.
Defined.

(** ** The batches of [insert_incidents] *)

Lemma for_each_fmap {S A B} (f : A → B) (l : list A) (body : B → prog S unit)
    (st : S) :
  for_each (f <$> l) body st = for_each l (λ x, body (f x)) st.
Proof.
  revert st. induction l as [|x l IH]; intros st; [done|].
  simpl. unfold mbind, prog_bind. destruct (body (f x) st) as [[[]|e] st']; [|done].
  apply IH.
Qed.

Lemma concat_slices {A} (s n j : nat) (l : list A) :
  0 < s → length l ≤ (j + n) * s →
  concat ((λ i, slice i (i + s) l) <$> ((λ k, k * s) <$> seq j n))
  = drop (j * s) l.
Proof.
  intros Hs. revert j. induction n as [|n IH]; intros j Hl.
  - rewrite drop_ge by lia. done.
  - cbn [seq fmap list_fmap concat]. rewrite IH by lia.
    unfold slice. replace (j * s + s - j * s) with s by lia.
    replace (S j * s) with (j * s + s) by lia.
    rewrite <- drop_drop. apply take_drop.
Qed.

Lemma batches_count (l : list incident_row) :
  length (batches l) = (length l + 99) `div` 100.
Proof.
  unfold batches, range_step, ExcelToDBProcessor.batch_size.
  rewrite !length_fmap, length_seq. f_equal. lia.
Qed.

Lemma batches_lookup (l : list incident_row) (j : nat) (c : list incident_row) :
  batches l !! j = Some c →
  j * 100 < length l ∧ c = take 100 (drop (j * 100) l).
Proof.
  unfold batches, range_step, ExcelToDBProcessor.batch_size.
  rewrite <- list_fmap_compose, list_lookup_fmap.
  intros Hj. apply fmap_Some in Hj as (k & Hk & ->).
  apply lookup_seq in Hk as [-> Hlt]. rewrite Nat.add_0_l. cbn beta.
  split.
  - pose proof (Nat.div_mod (length l + 100 - 1) 100).
    pose proof (Nat.mod_upper_bound (length l + 100 - 1) 100). lia.
  - unfold compose, slice. f_equal; lia.
Qed.

(** X14.  The batches that [insert_incidents] hands to [executemany] cut
    the list without loss: put end to end they are the list, each holds at
    least one and at most 100 records, and every batch but the last holds
    exactly 100. *)
Theorem batches_cut_the_list_without_loss (incidents : list incident_row) :
  concat (batches incidents) = incidents ∧
  (∀ st, incidents ≠ [] →
     ExcelToDBProcessor.insert_incidents incidents st
     = try_except (for_each (batches incidents) executemany)
                  (λ e, raise e) st) ∧
  (∀ j c, batches incidents !! j = Some c →
     0 < length c ≤ 100 ∧
     (S j < length (batches incidents) → length c = 100)).
Proof.
  split; [|split].
  - unfold batches, range_step. rewrite concat_slices.
    + done.
    + unfold ExcelToDBProcessor.batch_size. lia.
    + unfold ExcelToDBProcessor.batch_size.
      pose proof (Nat.div_mod (length incidents + 100 - 1) 100).
      pose proof (Nat.mod_upper_bound (length incidents + 100 - 1) 100). lia.
  - intros st Hne. destruct incidents as [|r l]; [done|].
    unfold ExcelToDBProcessor.insert_incidents, try_except, batches.
    by rewrite for_each_fmap.
  - intros j c Hj. pose proof (batches_lookup _ _ _ Hj) as [Hlt ->].
    rewrite length_take, length_drop. split; [lia|].
    rewrite batches_count. intros Hlast.
    pose proof (Nat.div_mod (length incidents + 99) 100).
    pose proof (Nat.mod_upper_bound (length incidents + 99) 100). lia.
Qed.

(** ** The JSON copies *)

Lemma filter_none {A} (P : A → Prop) `{∀ x, Decision (P x)} (l : list A) :
  Forall (λ x, ¬ P x) l → filter P l = [].
Proof.
  induction 1 as [|x l Hx _ IH]; [done|].
  by rewrite filter_cons, decide_False.
Qed.

Lemma write_records_run (json_dir : string) (df : list excel_row)
    (acc : list string) (fs : files) :
  ∃ fs',
    fold_prog (write_record json_dir) df acc fs
    = (Ok (acc ++ (ExcelToDBProcessor.json_path json_dir <$>
                     filter (λ k, ¬ (k = "" ∨ k = "nan")) (xl_INC <$> df))),
       fs') ∧
    ∀ p, fs' !! p = match last (filter (dumped_at json_dir p) df) with
                    | Some row => Some row
                    | None => fs !! p
                    end.
Proof.
  revert acc fs. induction df as [|row df IH]; intros acc fs.
  - exists fs. simpl. by rewrite app_nil_r.
  - cbn [fold_prog]. unfold mbind, prog_bind, write_record at 1.
    rewrite fmap_cons, filter_cons.
    destruct (decide (xl_INC row = "" ∨ xl_INC row = "nan")) as [Hbad|Hok].
    + destruct (IH acc fs) as (fs' & -> & Hfs').
      exists fs'. rewrite decide_False by tauto. split; [done|].
      intros p. rewrite Hfs', filter_cons, decide_False; [done|].
      unfold dumped_at. tauto.
    + destruct (IH (acc ++ [ExcelToDBProcessor.json_path json_dir (xl_INC row)])
                  (<[ExcelToDBProcessor.json_path json_dir (xl_INC row) := row]> fs))
        as (fs' & -> & Hfs').
      exists fs'. rewrite decide_True by done. split.
      { by rewrite fmap_cons, <- app_assoc. }
      intros p. rewrite Hfs', filter_cons.
      destruct (decide (dumped_at json_dir p row)) as [[_ Hp]|Hne].
      * rewrite last_cons.
        destruct (last (filter (dumped_at json_dir p) df)); [done|].
        subst p. apply lookup_insert_eq.
      * destruct (last (filter (dumped_at json_dir p) df)); [done|].
        apply lookup_insert_ne. intros Hp. apply Hne. by split.
Qed.

Lemma convert_to_json_run (df : list excel_row) (json_dir : string) (fs : files) :
  ∃ fs',
    convert_to_json df json_dir fs
    = (Ok (ExcelToDBProcessor.json_path json_dir <$>
             filter (λ k, ¬ (k = "" ∨ k = "nan")) (xl_INC <$> df)), fs') ∧
    ∀ p, fs' !! p = match last (filter (dumped_at json_dir p) df) with
                    | Some row => Some row
                    | None => fs !! p
                    end.
Proof.
  destruct (write_records_run json_dir df [] fs) as (fs' & Hrun & Hfs').
  exists fs'. split; [|done].
  unfold convert_to_json, try_except. by rewrite Hrun.
Qed.

(** X15.  [convert_to_json] returns one path for every row that has a key,
    in row order, also for rows that share a path; afterwards each path
    holds the last row dumped there, and a path no row is dumped at holds
    what it held before. *)
Theorem convert_to_json_keeps_the_last_row
    (df : list excel_row) (json_dir : string) (fs : files) :
  ∃ json_files_created fs',
    convert_to_json df json_dir fs = (Ok json_files_created, fs') ∧
    json_files_created
      = ExcelToDBProcessor.json_path json_dir <$>
          filter (λ k, ¬ (k = "" ∨ k = "nan")) (xl_INC <$> df) ∧
    (∀ p df1 row df2,
       df = df1 ++ row :: df2 → dumped_at json_dir p row →
       Forall (λ row', ¬ dumped_at json_dir p row') df2 →
       fs' !! p = Some row) ∧
    (∀ p, p ∉ json_files_created → fs' !! p = fs !! p).
Proof.
  destruct (convert_to_json_run df json_dir fs) as (fs' & Hrun & Hfs').
  eexists _, fs'. split; [exact Hrun|]. split; [done|]. split.
  - intros p df1 row df2 -> Hrow Hlater. rewrite Hfs'.
    rewrite filter_app, filter_cons, decide_True by done.
    rewrite (filter_none (dumped_at json_dir p) df2 Hlater).
    by rewrite last_snoc.
  - intros p Hp. rewrite Hfs'.
    destruct (last (filter (dumped_at json_dir p) df)) as [row|] eqn:Hlast;
      [|done].
    exfalso. apply Hp. apply last_Some_elem_of, list_elem_of_filter in Hlast
      as [[Hkey Hpath] Hin].
    apply list_elem_of_fmap. exists (xl_INC row). split; [done|].
    apply list_elem_of_filter. split; [done|].
    apply list_elem_of_fmap. by exists row.
Qed.

Section json_copies.
Context (generate_embedding : string → floats).

Lemma foldl_prepare_row_paths existing_incs json_dir acc df :
  Forall (λ r, json_file_path r = ExcelToDBProcessor.json_path json_dir (INC r)) acc →
  Forall (λ r, json_file_path r = ExcelToDBProcessor.json_path json_dir (INC r))
    (foldl (ExcelToDBProcessor.prepare_row generate_embedding existing_incs
              json_dir) acc df).
Proof.
  revert acc. induction df as [|row df IH]; intros acc Hacc; [done|].
  simpl. apply IH. unfold ExcelToDBProcessor.prepare_row.
  destruct (decide (xl_INC row ∈ existing_incs)); [done|].
  destruct (decide (xl_INC row = "" ∨ xl_INC row = "nan")); [done|].
  apply Forall_app. split; [done|]. by apply Forall_singleton.
Qed.

Lemma process_excel_to_db_added df json_dir (st : table) :
  ∃ added,
    snd (ExcelToDBProcessor.process_excel_to_db generate_embedding df json_dir st)
      = st ++ added ∧
    ∀ r, r ∈ added →
         INC r ∈ new_keys st df ∧
         json_file_path r = ExcelToDBProcessor.json_path json_dir (INC r).
Proof.
  rewrite process_excel_to_db_run, <- insert_incidents_executemany.
  pose proof (foldl_prepare_row_paths (stored_keys st) json_dir [] df
                (Forall_nil_2 _)) as Hpaths.
  pose proof (foldl_prepare_row_keys generate_embedding (stored_keys st)
                json_dir [] df) as Hkeys.
  destruct (insert_incidents_appends
              (foldl (ExcelToDBProcessor.prepare_row generate_embedding
                        (stored_keys st) json_dir) [] df) st)
    as (pre & post & Heq & _ & ->).
  exists pre. split; [done|]. intros r Hr. split.
  - unfold new_keys. simpl in Hkeys. rewrite <- Hkeys, Heq, fmap_app.
    apply elem_of_app. left. apply list_elem_of_fmap. by exists r.
  - rewrite Heq in Hpaths. apply Forall_app in Hpaths as [Hpre _].
    by apply (proj1 (Forall_forall _ _) Hpre).
Qed.
End json_copies.

(** X16.  Run on the same DataFrame and directory, [convert_to_json] writes
    a file at the [json_file_path] of every row the pipeline adds to the
    table: the path is among the returned ones and holds a row of the
    DataFrame dumped there. *)
Theorem added_rows_name_written_files
    (generate_embedding : string → floats)
    (df : list excel_row) (json_dir : string) (fs : files) (st : table) :
  ∃ json_files_created fs' added,
    convert_to_json df json_dir fs = (Ok json_files_created, fs') ∧
    snd (ExcelToDBProcessor.process_excel_to_db generate_embedding df json_dir st)
      = st ++ added ∧
    ∀ r, r ∈ added →
      json_file_path r ∈ json_files_created ∧
      ∃ row, row ∈ df ∧ dumped_at json_dir (json_file_path r) row ∧
             fs' !! json_file_path r = Some row.
Proof.
  destruct (convert_to_json_run df json_dir fs) as (fs' & Hrun & Hfs').
  destruct (process_excel_to_db_added generate_embedding df json_dir st)
    as (added & Hst & Hadded).
  eexists _, fs', added. split; [exact Hrun|]. split; [exact Hst|].
  intros r Hr. destruct (Hadded r Hr) as [Hkey Hpath].
  unfold new_keys in Hkey.
  apply list_elem_of_filter in Hkey as [[_ Hvalid] Hin].
  apply list_elem_of_fmap in Hin as (row & Hrow & Hdf).
  split.
  - rewrite Hpath. apply list_elem_of_fmap. exists (INC r). split; [done|].
    apply list_elem_of_filter. split; [done|].
    apply list_elem_of_fmap. by exists row.
  - rewrite Hfs'.
    destruct (last (filter (dumped_at json_dir (json_file_path r)) df))
      as [row'|] eqn:Hlast.
    + exists row'.
      apply last_Some_elem_of, list_elem_of_filter in Hlast as [Hd Hin].
      done.
    + apply last_None in Hlast.
      assert (row ∈ filter (dumped_at json_dir (json_file_path r)) df) as Hin.
      { apply list_elem_of_filter. split; [|done].
        split; [by rewrite <- Hrow | by rewrite <- Hrow, Hpath]. }
      rewrite Hlast in Hin. by apply elem_of_nil in Hin.
Qed.

(** ** The pattern analysis as a function of its matches *)

Lemma earliest_most_common_unique (m m' : string) (labels : list string) :
  earliest_most_common m labels → earliest_most_common m' labels → m = m'.
Proof.
  intros (_ & Hmax & Hfirst) (_ & Hmax' & Hfirst').
  destruct (decide (m = m')) as [|Hne]; [done|]. exfalso.
  assert (occurrences m labels = occurrences m' labels) as Heq.
  { pose proof (Hmax m'). pose proof (Hmax' m). lia. }
  pose proof (Hfirst m' (not_eq_sym Hne) (eq_sym Heq)).
  pose proof (Hfirst' m Hne Heq). lia.
Qed.

Lemma most_common_labels (label : incident → string) (l l' : list incident) :
  label <$> l = label <$> l' →
  most_common (group_by label l) = most_common (group_by label l').
Proof.
  intros Heq. destruct (decide (l = [])) as [->|Hne].
  - symmetry in Heq. apply fmap_nil_inv in Heq. by subst l'.
  - assert (l' ≠ []) as Hne'.
    { intros ->. by apply fmap_nil_inv in Heq. }
    destruct (most_common_spec label l Hne) as (m & -> & Hm).
    destruct (most_common_spec label l' Hne') as (m' & -> & Hm').
    rewrite Heq in Hm. f_equal. by apply (earliest_most_common_unique _ _ _ Hm Hm').
Qed.

(** X17.  The analysis is a function of the assignee and group labels of
    the matches in their order alone: two lists of matches with the same
    label sequences get the same analysis from either updater, whatever
    their similarity scores, their other fields and the description
    passed. *)
Theorem analysis_depends_on_labels_only
    (similar_incidents similar_incidents' : list incident)
    (jira_description jira_description' : string) :
  get_Assignee <$> similar_incidents = get_Assignee <$> similar_incidents' →
  get_Group <$> similar_incidents = get_Group <$> similar_incidents' →
  EnhancedJiraCommentUpdater.analyze_historical_patterns
      similar_incidents jira_description
    = EnhancedJiraCommentUpdater.analyze_historical_patterns
        similar_incidents' jira_description' ∧
  JiraCommentUpdater.analyze_historical_patterns
      similar_incidents jira_description
    = JiraCommentUpdater.analyze_historical_patterns
        similar_incidents' jira_description'.
Proof.
  intros Ha Hg.
  pose proof (most_common_labels get_Assignee _ _ Ha) as Hma.
  pose proof (most_common_labels get_Group _ _ Hg) as Hmg.
  assert (length similar_incidents = length similar_incidents') as Hlen.
  { by rewrite <- (length_fmap get_Assignee similar_incidents), Ha, length_fmap. }
  destruct similar_incidents as [|i l], similar_incidents' as [|i' l'];
    try discriminate Hlen; [done|].
  unfold EnhancedJiraCommentUpdater.analyze_historical_patterns,
    JiraCommentUpdater.analyze_historical_patterns.
  by rewrite Hma, Hmg, Hlen.
Qed.

Lemma analysis_depends_on_labels_only_witness :
  let near := {| i_INC := "INC1"; i_Short_Desc := "database is down";
                 i_Created_Date := None; i_Updated_Date := None;
                 i_Assignee := Some "jack"; i_Group := Some "app-dev";
                 i_Created_By := "RR"; i_Updated_By := "jack";
                 i_similarity := Quot 99 (Sqrt 10000) |} in
  let far := {| i_INC := "INC9"; i_Short_Desc := "printer jam";
                i_Created_Date := None; i_Updated_Date := None;
                i_Assignee := Some "jack"; i_Group := Some "app-dev";
                i_Created_By := "abc"; i_Updated_By := "xyz";
                i_similarity := Quot 3 (Sqrt 100) |} in
  EnhancedJiraCommentUpdater.analyze_historical_patterns
      [near; Sample.match_ "INC2" "xyz" "it-ops"] "database is down"
    = EnhancedJiraCommentUpdater.analyze_historical_patterns
        [far; Sample.match_ "INC3" "xyz" "it-ops"] "UI is not loading" ∧
  JiraCommentUpdater.analyze_historical_patterns
      [near; Sample.match_ "INC2" "xyz" "it-ops"] "database is down"
    = JiraCommentUpdater.analyze_historical_patterns
        [far; Sample.match_ "INC3" "xyz" "it-ops"] "UI is not loading".
Proof.
  intros near far.
  apply (analysis_depends_on_labels_only
           [near; Sample.match_ "INC2" "xyz" "it-ops"]
           [far; Sample.match_ "INC3" "xyz" "it-ops"]);
    reflexivity.
Defined.

Lemma count_times_015_mono (n n' : nat) :
  n ≤ n' → (count_times_015 n <= count_times_015 n')%Q.
Proof.
  intros Hn. unfold count_times_015.
  apply Qmult_le_compat_r; [|done]. rewrite <- Zle_Qle. lia.
Qed.

Lemma py_min_le_l (a b : Q) : (py_min a b <= a)%Q.
Proof.
  unfold py_min. destruct (Qle_bool a b) eqn:Hab; [apply Qle_refl|].
  apply Qlt_le_weak, Qnot_le_lt. intros Hle. apply Qle_bool_iff in Hle.
  congruence.
Qed.

Lemma py_min_le_r (a b : Q) : (py_min a b <= b)%Q.
Proof.
  unfold py_min. destruct (Qle_bool a b) eqn:Hab; [|apply Qle_refl].
  by apply Qle_bool_iff.
Qed.

Lemma py_min_glb (a b c : Q) : (c <= a)%Q → (c <= b)%Q → (c <= py_min a b)%Q.
Proof. intros Ha Hb. unfold py_min. by destruct (Qle_bool a b). Qed.

Lemma py_min_mono_r (a b b' : Q) : (b <= b')%Q → (py_min a b <= py_min a b')%Q.
Proof.
  intros Hb. apply py_min_glb; [apply py_min_le_l|].
  eapply Qle_trans; [apply py_min_le_r | done].
Qed.

(** The confidence the enhanced updater gives to a number of matches. *)
Lemma enhanced_confidence (l : list incident) (desc : string) :
  ∃ a,
    EnhancedJiraCommentUpdater.analyze_historical_patterns l desc = Ok a ∧
    EnhancedJiraCommentUpdater.confidence_score a =
      if length l =? 0 then 0%Q
      else if 3 <=? length l then py_min (8 # 10) (count_times_015 (length l))
      else (3 # 10)%Q.
Proof.
  destruct (decide (l = [])) as [->|Hne].
  - eexists. split; reflexivity.
  - destruct (enhanced_analysis_run l desc Hne) as (a & Ha & _ & _ & Hc).
    exists a. split; [done|]. rewrite Hc.
    destruct l as [|i l]; [done|]. reflexivity.
Qed.

Lemma basic_confidence (l : list incident) (desc : string) :
  ∃ a,
    JiraCommentUpdater.analyze_historical_patterns l desc = Ok a ∧
    JiraCommentUpdater.confidence_score a =
      if 3 <=? length l then py_min (8 # 10) (count_times_015 (length l))
      else 0%Q.
Proof.
  destruct (decide (l = [])) as [->|Hne].
  - eexists. split; reflexivity.
  - destruct (basic_analysis_run l desc Hne) as (a & ? & ? & Ha & _ & _ & _ & Hc).
    by exists a.
Qed.

(** X18.  Both updaters return an analysis for every list of matches, and
    its confidence lies between 0 and 0.8, never falls when the list gets
    longer, and is 0.8 from six matches on. *)
Theorem confidence_grows_with_match_count
    (similar_incidents similar_incidents' : list incident)
    (jira_description jira_description' : string) :
  length similar_incidents ≤ length similar_incidents' →
  (∃ a a',
     EnhancedJiraCommentUpdater.analyze_historical_patterns
       similar_incidents jira_description = Ok a ∧
     EnhancedJiraCommentUpdater.analyze_historical_patterns
       similar_incidents' jira_description' = Ok a' ∧
     (0 <= EnhancedJiraCommentUpdater.confidence_score a)%Q ∧
     (EnhancedJiraCommentUpdater.confidence_score a
      <= EnhancedJiraCommentUpdater.confidence_score a')%Q ∧
     (EnhancedJiraCommentUpdater.confidence_score a' <= 8 # 10)%Q ∧
     (6 ≤ length similar_incidents →
      (EnhancedJiraCommentUpdater.confidence_score a == 8 # 10)%Q)) ∧
  (∃ a a',
     JiraCommentUpdater.analyze_historical_patterns
       similar_incidents jira_description = Ok a ∧
     JiraCommentUpdater.analyze_historical_patterns
       similar_incidents' jira_description' = Ok a' ∧
     (0 <= JiraCommentUpdater.confidence_score a)%Q ∧
     (JiraCommentUpdater.confidence_score a
      <= JiraCommentUpdater.confidence_score a')%Q ∧
     (JiraCommentUpdater.confidence_score a' <= 8 # 10)%Q ∧
     (6 ≤ length similar_incidents →
      (JiraCommentUpdater.confidence_score a == 8 # 10)%Q)).
Proof.
  intros Hlen.
  assert (∀ n, 3 ≤ n → (45 # 100 <= count_times_015 n)%Q) as H3.
  { intros n Hn. apply (Qle_trans _ (count_times_015 3)); [done|].
    by apply count_times_015_mono. }
  assert (∀ n, 6 ≤ n → (8 # 10 <= count_times_015 n)%Q) as H6.
  { intros n Hn. apply (Qle_trans _ (count_times_015 6)); [done|].
    by apply count_times_015_mono. }
  assert (∀ n, 3 ≤ n → (3 # 10 <= py_min (8 # 10) (count_times_015 n))%Q) as Hlow.
  { intros n Hn. apply py_min_glb; [done|].
    apply (Qle_trans _ (45 # 100)); [done | by apply H3]. }
  assert (∀ n, 6 ≤ n → (py_min (8 # 10) (count_times_015 n) == 8 # 10)%Q) as Htop.
  { intros n Hn. apply Qle_antisym; [apply py_min_le_l|].
    apply py_min_glb; [apply Qle_refl | by apply H6]. }
  split.
  - destruct (enhanced_confidence similar_incidents jira_description)
      as (a & Ha & Hc).
    destruct (enhanced_confidence similar_incidents' jira_description')
      as (a' & Ha' & Hc').
    exists a, a'. split; [done|]. split; [done|]. rewrite Hc, Hc'.
    destruct (Nat.eqb_spec (length similar_incidents) 0) as [H0|H0];
      destruct (Nat.eqb_spec (length similar_incidents') 0) as [H0'|H0'];
      destruct (Nat.leb_spec0 3 (length similar_incidents)) as [H|H];
      destruct (Nat.leb_spec0 3 (length similar_incidents')) as [H'|H'];
      try lia.
    + split; [done|]. split; [done|]. split; [done|]. lia.
    + split; [done|]. split; [|split; [apply py_min_le_l | lia]].
      apply (Qle_trans _ (3 # 10)); [done | by apply Hlow].
    + split; [done|]. split; [done|]. split; [done|]. lia.
    + split; [apply (Qle_trans _ (3 # 10)); [done | by apply Hlow]|].
      split; [by apply py_min_mono_r, count_times_015_mono|].
      split; [apply py_min_le_l|]. intros H6'. by apply Htop.
    + split; [done|]. split; [by apply Hlow|].
      split; [apply py_min_le_l | lia].
    + split; [done|]. split; [apply Qle_refl|]. split; [done | lia].
  - destruct (basic_confidence similar_incidents jira_description)
      as (a & Ha & Hc).
    destruct (basic_confidence similar_incidents' jira_description')
      as (a' & Ha' & Hc').
    exists a, a'. split; [done|]. split; [done|]. rewrite Hc, Hc'.
    destruct (Nat.leb_spec0 3 (length similar_incidents)) as [H|H];
      destruct (Nat.leb_spec0 3 (length similar_incidents')) as [H'|H'];
      try lia.
    + split; [apply (Qle_trans _ (3 # 10)); [done | by apply Hlow]|].
      split; [by apply py_min_mono_r, count_times_015_mono|].
      split; [apply py_min_le_l|]. intros H6'. by apply Htop.
    + split; [done|].
      split; [apply (Qle_trans _ (3 # 10)); [done | by apply Hlow]|].
      split; [apply py_min_le_l | lia].
    + split; [done|]. split; [apply Qle_refl|]. split; [done | lia].
Qed.

Lemma confidence_grows_with_match_count_witness :
  let two := [Sample.match_ "INC1" "jack" "app-dev";
              Sample.match_ "INC2" "xyz" "app-dev"] in
  let four := two ++ two in
  (∃ a a',
     EnhancedJiraCommentUpdater.analyze_historical_patterns
       two "UI is not loading" = Ok a ∧
     EnhancedJiraCommentUpdater.analyze_historical_patterns
       four "UI is not loading" = Ok a' ∧
     (0 <= EnhancedJiraCommentUpdater.confidence_score a)%Q ∧
     (EnhancedJiraCommentUpdater.confidence_score a
      <= EnhancedJiraCommentUpdater.confidence_score a')%Q ∧
     (EnhancedJiraCommentUpdater.confidence_score a' <= 8 # 10)%Q ∧
     (6 ≤ length two →
      (EnhancedJiraCommentUpdater.confidence_score a == 8 # 10)%Q)) ∧
  (∃ a a',
     JiraCommentUpdater.analyze_historical_patterns
       two "UI is not loading" = Ok a ∧
     JiraCommentUpdater.analyze_historical_patterns
       four "UI is not loading" = Ok a' ∧
     (0 <= JiraCommentUpdater.confidence_score a)%Q ∧
     (JiraCommentUpdater.confidence_score a
      <= JiraCommentUpdater.confidence_score a')%Q ∧
     (JiraCommentUpdater.confidence_score a' <= 8 # 10)%Q ∧
     (6 ≤ length two →
      (JiraCommentUpdater.confidence_score a == 8 # 10)%Q)).
Proof.
  intros two four.
  apply (confidence_grows_with_match_count two four). simpl. lia.
Defined.

(** ** batch_process_issues on a list in two parts *)

Section batch_parts.
Context {world : Type} (process_jira_issue : string → prog world bool).

Local Abbreviation batch_loop :=
  (EnhancedJiraCommentUpdater.batch_loop world process_jira_issue).

Lemma batch_loop_app keys1 keys2 results w :
  batch_loop (keys1 ++ keys2) results w =
    match batch_loop keys1 results w with
    | (Ok results1, w1) => batch_loop keys2 results1 w1
    | (Raise e, w1) => (Raise e, w1)
    end.
Proof.
  revert results w. induction keys1 as [|k keys1 IH]; intros results w; [done|].
  rewrite <- app_comm_cons, !batch_loop_cons. apply IH.
Qed.

(** The dictionary the loop started from only shows through where the loop
    wrote nothing. *)
Lemma batch_loop_union keys results w :
  ∃ written w',
    batch_loop keys ∅ w = (Ok written, w') ∧
    batch_loop keys results w = (Ok (written ∪ results), w').
Proof.
  revert results w. induction keys as [|k keys IH]; intros results w.
  - exists ∅, w. split; [done|]. simpl. by rewrite (left_id_L ∅ (∪)).
  - rewrite !batch_loop_cons.
    set (b := recorded (fst (process_jira_issue k w))).
    set (w1 := snd (process_jira_issue k w)).
    destruct (IH (<[k := b]> results) w1) as (written & w' & Hrun & Hres).
    destruct (IH (<[k := b]> ∅) w1) as (written' & w'' & Hrun' & Hres').
    rewrite Hrun in Hrun'. injection Hrun' as <- <-.
    exists (written ∪ <[k := b]> ∅), w'. split; [done|].
    rewrite Hres. do 2 f_equal.
    rewrite insert_empty, <- (assoc_L (∪)).
    by rewrite <- insert_union_singleton_l.
Qed.
End batch_parts.

(** X19.  Processing a list of issue keys in one call gives what two calls
    on its two parts give, the second from the world the first left: the
    entries of the second call over those of the first, so that a key
    listed again is processed again and its later outcome is the one
    kept. *)
Theorem batch_process_issues_in_two_calls
    (world : Type) (process_jira_issue : string → prog world bool)
    (issue_keys1 issue_keys2 : list string) (w : world) :
  ∃ results1 w1 results2 w2,
    EnhancedJiraCommentUpdater.batch_process_issues
      world process_jira_issue issue_keys1 w = (Ok results1, w1) ∧
    EnhancedJiraCommentUpdater.batch_process_issues
      world process_jira_issue issue_keys2 w1 = (Ok results2, w2) ∧
    EnhancedJiraCommentUpdater.batch_process_issues
      world process_jira_issue (issue_keys1 ++ issue_keys2) w
      = (Ok (results2 ∪ results1), w2).
Proof.
  unfold EnhancedJiraCommentUpdater.batch_process_issues.
  destruct (batch_loop_spec process_jira_issue issue_keys1 ∅ w)
    as (results1 & w1 & Hrun1 & _).
  destruct (batch_loop_union process_jira_issue issue_keys2 results1 w1)
    as (results2 & w2 & Hrun2 & Hall).
  exists results1, w1, results2, w2. split; [done|]. split; [done|].
  by rewrite batch_loop_app, Hrun1.
Qed.

(** ** One Jira issue *)

Section batch_world.
Context {world : Type} (process_jira_issue : string → prog world bool).

(** A [process_jira_issue] that always returns [False] and touches
    nothing makes the batch do the same. *)
Lemma batch_loop_all_false keys results w :
  (∀ k w0, process_jira_issue k w0 = (Ok false, w0)) →
  ∃ results',
    EnhancedJiraCommentUpdater.batch_loop world process_jira_issue
      keys results w = (Ok results', w) ∧
    dom results' = dom results ∪ list_to_set keys ∧
    ∀ k, k ∈ keys → results' !! k = Some false.
Proof.
  intros Hfalse.
  destruct (batch_loop_spec process_jira_issue keys results w)
    as (results' & w' & Hrun & Hdom & _ & Hin).
  assert (w' = w) as ->.
  { clear Hdom Hin. revert results w Hrun.
    induction keys as [|k keys IH]; intros results w Hrun.
    - by injection Hrun.
    - rewrite batch_loop_cons, Hfalse in Hrun. by apply IH in Hrun. }
  exists results'. split; [done|]. split; [done|].
  intros k Hk. apply Hin; [done|]. intros w0. by rewrite Hfalse.
Qed.
End batch_world.

Section issue_facts.
Context {world parsed : Type}.
Context (jira : bool).
Context (jira_get_issue : string → prog world json).
Context (jira_create_comment : string → string → prog world unit).
Context (llm_available : bool).
Context (chat_completion : string → list incident → prog world string).
Context (json_loads : string → result parsed).
Context (generate_analysis_comment :
  string → list incident → EnhancedJiraCommentUpdater.analysis + parsed →
  result string).
Context (encode : string → floats).
Context (order_by_similarity_desc : list sql_row → list sql_row).
Context (st : table).

Local Abbreviation analyze_with_llm :=
  (IssueProcessing.analyze_with_llm world llm_available chat_completion parsed
     json_loads).
Local Abbreviation get_jira_issue :=
  (IssueProcessing.get_jira_issue world jira jira_get_issue).
Local Abbreviation process_jira_issue :=
  (IssueProcessing.process_jira_issue world jira jira_get_issue
     jira_create_comment llm_available chat_completion parsed json_loads
     generate_analysis_comment encode order_by_similarity_desc st).

Lemma process_jira_issue_not_fetched k threshold w w1 :
  get_jira_issue k w = (Ok None, w1) →
  process_jira_issue k threshold w = (Ok false, w1).
Proof.
  intros Hget. unfold IssueProcessing.process_jira_issue, mbind, prog_bind.
  by rewrite Hget.
Qed.

Lemma get_jira_issue_conversion_fails k w issue w1 e :
  jira = true →
  jira_get_issue k w = (Ok issue, w1) →
  issue_to_dict issue = Raise e →
  get_jira_issue k w = (Ok None, w1).
Proof.
  intros -> Hget Hconv.
  unfold IssueProcessing.get_jira_issue, try_except, mbind, prog_bind, lift.
  simpl. by rewrite Hget, Hconv.
Qed.

(** With a record in the table that no query vector fits, the search
    ends every call that reaches it. *)
Lemma process_jira_issue_misfit k threshold w :
  Exists (λ r, ∀ d, length (vector r) ≠ length (encode d)) st →
  process_jira_issue k threshold w
  = match get_jira_issue k w with
    | (Ok (Some issue), w1) =>
        if negb (truthy (fld_description issue)) then (Ok false, w1)
        else
          match fld_description issue with
          | JStr _ => (Raise (ValueError "shapes not aligned"), w1)
          | _ => (Raise (Exception "unhashable type: 'slice'"), w1)
          end
    | (Ok None, w1) => (Ok false, w1)
    | (Raise e, w1) => (Raise e, w1)
    end.
Proof.
  intros Hex. unfold IssueProcessing.process_jira_issue, mbind, prog_bind.
  destruct (get_jira_issue k w) as [[[issue|]|e] w1]; [|done|done].
  destruct (truthy (fld_description issue)); [|done]. simpl.
  destruct (fld_description issue) as [|d|items]; [done| |done].
  unfold lift, EnhancedJiraCommentUpdater.search_similar_incidents,
    execute_query.
  rewrite select_similarity_Raise; [done|].
  eapply Exists_impl; [exact Hex|]. intros r Hr. apply Hr.
Qed.
End issue_facts.

(** X20.  An updater whose Jira client was not set up processes nothing:
    [process_jira_issue] returns [False] for every key without a call
    to the outside, and [batch_process_issues] maps every key to
    [False]. *)
Theorem issue_not_processed_without_client
    (world parsed : Type)
    (jira_get_issue : string → prog world json)
    (jira_create_comment : string → string → prog world unit)
    (llm_available : bool)
    (chat_completion : string → list incident → prog world string)
    (json_loads : string → result parsed)
    (generate_analysis_comment :
       string → list incident → EnhancedJiraCommentUpdater.analysis + parsed →
       result string)
    (encode : string → floats) (order_by : list sql_row → list sql_row)
    (st : table) (issue_keys : list string) (w : world) :
  (∀ issue_key threshold,
     IssueProcessing.process_jira_issue world false jira_get_issue
       jira_create_comment llm_available chat_completion parsed json_loads
       generate_analysis_comment encode order_by st issue_key threshold w
     = (Ok false, w)) ∧
  ∃ results,
    IssueProcessing.batch_process_issues world false jira_get_issue
      jira_create_comment llm_available chat_completion parsed json_loads
      generate_analysis_comment encode order_by st issue_keys w
    = (Ok results, w) ∧
    dom results = list_to_set issue_keys ∧
    ∀ issue_key, issue_key ∈ issue_keys → results !! issue_key = Some false.
Proof.
  assert (∀ issue_key threshold w0,
            IssueProcessing.process_jira_issue world false jira_get_issue
              jira_create_comment llm_available chat_completion parsed
              json_loads generate_analysis_comment encode order_by st
              issue_key threshold w0 = (Ok false, w0)) as Hfalse.
  { intros issue_key threshold w0. by apply process_jira_issue_not_fetched. }
  split; [intros; apply Hfalse|].
  unfold IssueProcessing.batch_process_issues,
    EnhancedJiraCommentUpdater.batch_process_issues.
  destruct (batch_loop_all_false
              (λ issue_key,
                 IssueProcessing.process_jira_issue world false jira_get_issue
                   jira_create_comment llm_available chat_completion parsed
                   json_loads generate_analysis_comment encode order_by st
                   issue_key None)
              issue_keys ∅ w) as (results & Hrun & Hdom & Hin).
  { intros k w0. apply Hfalse. }
  exists results. split; [done|]. split; [|done].
  by rewrite Hdom, dom_empty_L, (left_id_L ∅ (∪)).
Qed.

(** X21.  An issue whose [assignee] field is [null] is treated as one that
    could not be fetched: the conversion in [get_jira_issue] fails on it,
    and [process_jira_issue] returns [False] after the one call that
    fetched it, without searching or commenting. *)
Theorem unassigned_issue_is_not_processed
    (world parsed : Type)
    (jira_get_issue : string → prog world json)
    (jira_create_comment : string → string → prog world unit)
    (llm_available : bool)
    (chat_completion : string → list incident → prog world string)
    (json_loads : string → result parsed)
    (generate_analysis_comment :
       string → list incident → EnhancedJiraCommentUpdater.analysis + parsed →
       result string)
    (encode : string → floats) (order_by : list sql_row → list sql_row)
    (st : table) (issue_key : string) (threshold : option Q)
    (w w1 : world) (issue fields : json) :
  jira_get_issue issue_key w = (Ok issue, w1) →
  py_get issue "fields" (JObj []) = Ok fields →
  py_get fields "assignee" (JObj []) = Ok JNull →
  IssueProcessing.get_jira_issue world true jira_get_issue issue_key w
    = (Ok None, w1) ∧
  IssueProcessing.process_jira_issue world true jira_get_issue
    jira_create_comment llm_available chat_completion parsed json_loads
    generate_analysis_comment encode order_by st issue_key threshold w
  = (Ok false, w1).
Proof.
  intros Hget Hfields Hassignee.
  assert (∃ e, issue_to_dict issue = Raise e) as [e He].
  { unfold issue_to_dict. rewrite !Hfields.
    destruct (py_get issue "key" JNull) as [key|e]; [|by eexists].
    cbn [mbind result_bind].
    destruct (py_get fields "summary" (JStr "")) as [summary|e]; [|by eexists].
    cbn [mbind result_bind].
    destruct (py_get fields "description" (JStr "")) as [description|e];
      [|by eexists].
    cbn [mbind result_bind].
    destruct (py_get fields "status" (JObj [])) as [status|e]; [|by eexists].
    cbn [mbind result_bind].
    destruct (py_get status "name" (JStr "Unknown")) as [name|e]; [|by eexists].
    cbn [mbind result_bind]. rewrite Hassignee. by eexists. }
  assert (IssueProcessing.get_jira_issue world true jira_get_issue issue_key w
          = (Ok None, w1)) as Hnone.
  { by eapply get_jira_issue_conversion_fails. }
  split; [done|]. by apply process_jira_issue_not_fetched.
Qed.

Lemma unassigned_issue_is_not_processed_witness :
  IssueProcessing.get_jira_issue (list string) true SampleJira.get_issue
    "PROJ-2" []
    = (Ok None, []) ∧
  IssueProcessing.process_jira_issue (list string) true SampleJira.get_issue
    SampleJira.create_comment false SampleJira.chat_completion unit
    SampleJira.json_loads SampleJira.generate_analysis_comment
    Sample.embed scan_order_engine Sample.table_abc "PROJ-2" None []
  = (Ok false, []).
Proof.
  eapply (unassigned_issue_is_not_processed (list string) unit
            SampleJira.get_issue SampleJira.create_comment false
            SampleJira.chat_completion SampleJira.json_loads
            SampleJira.generate_analysis_comment Sample.embed
            scan_order_engine Sample.table_abc "PROJ-2" None [] []);
    reflexivity.
Defined.

(** X22.  One stored record that no query vector fits (a record stored
    without an embedding among embedded ones) stops the updater: no call
    of [process_jira_issue] returns [True], none reaches
    [create_comment], and [batch_process_issues] maps every key to
    [False]. *)
Theorem misfit_record_stops_the_updater
    (world parsed : Type) (jira : bool)
    (jira_get_issue : string → prog world json)
    (jira_create_comment : string → string → prog world unit)
    (llm_available : bool)
    (chat_completion : string → list incident → prog world string)
    (json_loads : string → result parsed)
    (generate_analysis_comment :
       string → list incident → EnhancedJiraCommentUpdater.analysis + parsed →
       result string)
    (encode : string → floats) (order_by : list sql_row → list sql_row)
    (st : table) (issue_keys : list string) (w : world) :
  Exists (λ r, ∀ d, length (vector r) ≠ length (encode d)) st →
  (∀ issue_key threshold w0,
     fst (IssueProcessing.process_jira_issue world jira jira_get_issue
            jira_create_comment llm_available chat_completion parsed
            json_loads generate_analysis_comment encode order_by st
            issue_key threshold w0) ≠ Ok true) ∧
  (∀ other_create_comment issue_key threshold w0,
     IssueProcessing.process_jira_issue world jira jira_get_issue
       jira_create_comment llm_available chat_completion parsed json_loads
       generate_analysis_comment encode order_by st issue_key threshold w0
     = IssueProcessing.process_jira_issue world jira jira_get_issue
         other_create_comment llm_available chat_completion parsed json_loads
         generate_analysis_comment encode order_by st issue_key threshold w0) ∧
  ∃ results w',
    IssueProcessing.batch_process_issues world jira jira_get_issue
      jira_create_comment llm_available chat_completion parsed json_loads
      generate_analysis_comment encode order_by st issue_keys w
    = (Ok results, w') ∧
    ∀ issue_key, issue_key ∈ issue_keys → results !! issue_key = Some false.
Proof.
  intros Hex.
  assert (∀ issue_key threshold w0,
     fst (IssueProcessing.process_jira_issue world jira jira_get_issue
            jira_create_comment llm_available chat_completion parsed
            json_loads generate_analysis_comment encode order_by st
            issue_key threshold w0) ≠ Ok true) as Hnot.
  { intros issue_key threshold w0.
    rewrite (process_jira_issue_misfit _ _ _ _ _ _ _ _ _ _ _ _ _ Hex).
    destruct (IssueProcessing.get_jira_issue world jira jira_get_issue
                issue_key w0) as [[[issue|]|e] w1]; [|done|done].
    destruct (truthy (fld_description issue)); [|done]. simpl.
    by destruct (fld_description issue). }
  split; [done|]. split.
  - intros other issue_key threshold w0.
    by rewrite !(process_jira_issue_misfit _ _ _ _ _ _ _ _ _ _ _ _ _ Hex).
  - unfold IssueProcessing.batch_process_issues,
      EnhancedJiraCommentUpdater.batch_process_issues.
    destruct (batch_loop_spec
                (λ issue_key,
                   IssueProcessing.process_jira_issue world jira jira_get_issue
                     jira_create_comment llm_available chat_completion parsed
                     json_loads generate_analysis_comment encode order_by st
                     issue_key None)
                issue_keys ∅ w) as (results & w' & Hrun & _ & _ & Hin).
    exists results, w'. split; [done|].
    intros issue_key Hk. apply Hin; [done|]. intros w0.
    pose proof (Hnot issue_key None w0) as Hn.
    destruct (fst _) as [[|]|e]; done.
Qed.

Lemma misfit_record_stops_the_updater_witness :
  let st := [ Sample.row "INC1" "database is down" "jack" "app-dev" [1; 0]%Q;
              Sample.row "INC2" "" "xyz" "app-dev" [] ] in
  (∀ issue_key threshold w0,
     fst (IssueProcessing.process_jira_issue (list string) true
            SampleJira.get_issue SampleJira.create_comment false
            SampleJira.chat_completion unit SampleJira.json_loads
            SampleJira.generate_analysis_comment Sample.embed
            scan_order_engine st issue_key threshold w0) ≠ Ok true) ∧
  (∀ other_create_comment issue_key threshold w0,
     IssueProcessing.process_jira_issue (list string) true
       SampleJira.get_issue SampleJira.create_comment false
       SampleJira.chat_completion unit SampleJira.json_loads
       SampleJira.generate_analysis_comment Sample.embed
       scan_order_engine st issue_key threshold w0
     = IssueProcessing.process_jira_issue (list string) true
         SampleJira.get_issue other_create_comment false
         SampleJira.chat_completion unit SampleJira.json_loads
         SampleJira.generate_analysis_comment Sample.embed
         scan_order_engine st issue_key threshold w0) ∧
  ∃ results w',
    IssueProcessing.batch_process_issues (list string) true
      SampleJira.get_issue SampleJira.create_comment false
      SampleJira.chat_completion unit SampleJira.json_loads
      SampleJira.generate_analysis_comment Sample.embed
      scan_order_engine st ["PROJ-1"; "PROJ-2"; "PROJ-404"] []
    = (Ok results, w') ∧
    ∀ issue_key, issue_key ∈ ["PROJ-1"; "PROJ-2"; "PROJ-404"] →
                 results !! issue_key = Some false.
Proof.
  intros st.
  apply (misfit_record_stops_the_updater (list string) unit true
           SampleJira.get_issue SampleJira.create_comment false
           SampleJira.chat_completion SampleJira.json_loads
           SampleJira.generate_analysis_comment Sample.embed
           scan_order_engine st ["PROJ-1"; "PROJ-2"; "PROJ-404"] []).
  apply Exists_cons_tl, Exists_cons_hd. intros d. unfold Sample.embed.
  simpl. destruct (decide (d = "database is down")); [discriminate|].
  destruct (decide (d = "printer jam")); discriminate.
Defined.

(** X23.  [analyze_with_llm] answers on every input, whatever the model
    and the parser do: with the parsed reply when the model is available,
    there are matches, the call returned and the reply parsed, and with
    the rule-based analysis otherwise; with the model unavailable or no
    matches it makes no call. *)
Theorem analyze_with_llm_always_answers
    (world parsed : Type) (llm_available : bool)
    (chat_completion : string → list incident → prog world string)
    (json_loads : string → result parsed)
    (jira_description : string) (similar_incidents : list incident)
    (w : world) :
  ∃ analysis w',
    IssueProcessing.analyze_with_llm world llm_available chat_completion
      parsed json_loads jira_description similar_incidents w
    = (Ok analysis, w') ∧
    match analysis with
    | inl rule_based =>
        EnhancedJiraCommentUpdater.analyze_historical_patterns
          similar_incidents jira_description = Ok rule_based
    | inr parsed_result =>
        llm_available = true ∧ similar_incidents ≠ [] ∧
        ∃ llm_result,
          chat_completion jira_description similar_incidents w
            = (Ok llm_result, w') ∧
          json_loads llm_result = Ok parsed_result
    end ∧
    (llm_available = false ∨ similar_incidents = [] → w' = w).
Proof.
  destruct (enhanced_confidence similar_incidents jira_description)
    as (a0 & Ha0 & _).
  unfold IssueProcessing.analyze_with_llm.
  destruct llm_available; simpl.
  - destruct similar_incidents as [|i l].
    + exists (inl a0), w. unfold mbind, prog_bind, lift. by rewrite Ha0.
    + unfold try_except, try_except_JSONDecodeError, mbind, prog_bind, lift.
      destruct (chat_completion jira_description (i :: l) w)
        as [[llm_result|e] w1] eqn:Hllm.
      * destruct (json_loads llm_result) as [p|e] eqn:Hp.
        -- exists (inr p), w1. split; [done|]. split.
           ++ split; [done|]. split; [done|]. by exists llm_result.
           ++ by intros [|].
        -- exists (inl a0), w1. rewrite Ha0.
           destruct e; (split; [done|]); (split; [done|]); by intros [|].
      * exists (inl a0), w1. rewrite Ha0.
        split; [done|]. split; [done|]. by intros [|].
  - exists (inl a0), w. unfold mbind, prog_bind, lift. by rewrite Ha0.
Qed.

(** ** A failed embedding *)

Section embedding_facts.
Context (generate_embedding : string → floats).


End embedding_facts.



(** ** Reading the issue keys of the batch form *)

Lemma append_cons (c : ascii) (s t : string) :
  String c s +:+ t = String c (s +:+ t).
Proof. reflexivity. Qed.

Lemma chars_append (s t : string) : chars (s +:+ t) = chars s ++ chars t.
Proof.
  induction s as [|c s IH]; [done|]. rewrite append_cons. simpl. by rewrite IH.
Qed.

Section text_facts.
Context (isspace : ascii → bool).

Local Abbreviation lstrip := (BatchRoute.lstrip isspace).
Local Abbreviation rstrip := (BatchRoute.rstrip isspace).
Local Abbreviation strip := (BatchRoute.strip isspace).
Local Abbreviation split := BatchRoute.split.
Local Abbreviation split_pieces := BatchRoute.split_pieces.
Local Abbreviation keys_of_line := (BatchRoute.keys_of_line isspace).
Local Abbreviation parse_issue_keys := (BatchRoute.parse_issue_keys isspace).

Lemma split_cons sep c s :
  split sep (String c s) =
    if decide (c = sep) then EmptyString :: split sep s
    else match split sep s with
         | piece :: pieces => String c piece :: pieces
         | [] => []
         end.
Proof.
  unfold BatchRoute.split. simpl.
  destruct (split_pieces sep s) as [piece pieces].
  by destruct (decide (c = sep)).
Qed.

Lemma split_not_nil sep s : split sep s ≠ [].
Proof. unfold BatchRoute.split. by destruct (split_pieces sep s). Qed.

(** No piece holds the separator, and every piece is made of characters
    of the string. *)
Lemma split_pieces_chars sep s :
  Forall (λ piece, (sep ∉ chars piece) ∧ chars piece ⊆ chars s) (split sep s).
Proof.
  induction s as [|c s IH].
  - apply Forall_singleton. split; [apply not_elem_of_nil | done].
  - rewrite split_cons.
    assert (Forall (λ piece, (sep ∉ chars piece) ∧ chars piece ⊆ chars (String c s))
              (split sep s)) as IH'.
    { eapply Forall_impl; [exact IH|]. intros piece [Hsep Hsub].
      split; [done|]. intros x Hx. simpl. apply elem_of_cons. right.
      by apply Hsub. }
    destruct (decide (c = sep)) as [->|Hc].
    + apply Forall_cons. split; [|done].
      split; [apply not_elem_of_nil|]. intros x Hx. by inversion Hx.
    + destruct (split sep s) as [|piece pieces]; [done|].
      apply Forall_cons in IH as [[Hsep Hsub] _].
      apply Forall_cons in IH' as [_ IH'].
      apply Forall_cons. split; [|done]. split.
      * simpl. apply not_elem_of_cons. split; [by apply not_eq_sym | done].
      * intros x. simpl. rewrite !elem_of_cons. intros [->|Hx]; [by left|].
        right. by apply Hsub.
Qed.

Lemma split_without_separator sep s : sep ∉ chars s → split sep s = [s].
Proof.
  induction s as [|c s IH]; [done|]. simpl.
  intros [Hc Hs]%not_elem_of_cons. rewrite split_cons, decide_False by done.
  by rewrite IH.
Qed.

Lemma split_append sep s t :
  sep ∉ chars s → split sep (s +:+ String sep t) = s :: split sep t.
Proof.
  induction s as [|c s IH].
  - intros _. change ("" +:+ String sep t) with (String sep t).
    by rewrite split_cons, decide_True.
  - simpl. intros [Hc Hs]%not_elem_of_cons.
    rewrite append_cons, split_cons, decide_False by done.
    by rewrite IH.
Qed.

Lemma split_join sep keys :
  keys ≠ [] → Forall (λ k, sep ∉ chars k) keys →
  split sep (join sep keys) = keys.
Proof.
  induction keys as [|k keys IH]; [done|]. intros _ Hkeys.
  apply Forall_cons in Hkeys as [Hk Hkeys].
  destruct keys as [|k' keys].
  - by apply split_without_separator.
  - change (join sep (k :: k' :: keys))
      with (k +:+ String sep (join sep (k' :: keys))).
    rewrite split_append by done. by rewrite IH.
Qed.

Lemma lstrip_chars s : chars (lstrip s) ⊆ chars s.
Proof.
  induction s as [|c s IH]; [done|]. simpl.
  destruct (isspace c); [|done].
  intros x Hx. apply elem_of_cons. right. by apply IH.
Qed.

Lemma rstrip_chars s : chars (rstrip s) ⊆ chars s.
Proof.
  induction s as [|c s IH]; [done|]. simpl.
  destruct (rstrip s) as [|c' t] eqn:Ht.
  - destruct (isspace c); intros x Hx; [by inversion Hx|].
    apply list_elem_of_singleton in Hx as ->. by left.
  - intros x. change (chars (String c (String c' t)))
      with (c :: chars (String c' t)).
    rewrite !elem_of_cons. intros [->|Hx]; [by left|]. right. by apply IH.
Qed.

Lemma strip_chars s : chars (strip s) ⊆ chars s.
Proof.
  intros x Hx. by apply lstrip_chars, rstrip_chars.
Qed.

Lemma rstrip_idem s : rstrip (rstrip s) = rstrip s.
Proof.
  induction s as [|c s IH]; [done|]. simpl.
  destruct (rstrip s) as [|c' t] eqn:Ht.
  - destruct (isspace c) eqn:Hc; [done|]. simpl. by rewrite Hc.
  - change (rstrip (String c (String c' t)))
      with (match rstrip (String c' t) with
            | EmptyString =>
                if isspace c then EmptyString else String c EmptyString
            | t' => String c t'
            end).
    by rewrite IH.
Qed.

(** Cutting at the right end leaves the left end as it is. *)
Lemma lstrip_rstrip s : lstrip s = s → lstrip (rstrip s) = rstrip s.
Proof.
  destruct s as [|c s]; [done|]. simpl.
  destruct (isspace c) eqn:Hc.
  - intros Heq. exfalso.
    assert (String.length (lstrip s) ≤ String.length s) as Hlen.
    { clear. induction s as [|c s IH]; [done|]. simpl.
      destruct (isspace c); simpl; lia. }
    rewrite Heq in Hlen. simpl in Hlen. lia.
  - intros _. destruct (rstrip s); simpl; by rewrite Hc.
Qed.

Lemma lstrip_idem s : lstrip (lstrip s) = lstrip s.
Proof.
  induction s as [|c s IH]; [done|]. simpl.
  destruct (isspace c) eqn:Hc; [done|]. simpl. by rewrite Hc.
Qed.

Lemma strip_idem s : strip (strip s) = strip s.
Proof.
  unfold BatchRoute.strip.
  rewrite (lstrip_rstrip (lstrip s)) by apply lstrip_idem.
  apply rstrip_idem.
Qed.

Lemma parse_loop_lines (lines : list string) (acc : list string) :
  foldl (λ issue_keys line,
           let line := strip line in
           if bool_decide (line ≠ "") && negb (BatchRoute.startswith "#"%char line)
           then issue_keys ++ keys_of_line line
           else issue_keys) acc lines
  = acc ++ concat ((λ line,
               if bool_decide (strip line ≠ "")
                  && negb (BatchRoute.startswith "#"%char (strip line))
               then keys_of_line (strip line) else [])
              <$> lines).
Proof.
  revert acc. induction lines as [|line lines IH]; intros acc.
  - simpl. by rewrite app_nil_r.
  - simpl. rewrite IH.
    destruct (bool_decide (strip line ≠ "")
              && negb (BatchRoute.startswith "#"%char (strip line))).
    + symmetry. apply (assoc_L (++)).
    + done.
Qed.

(** The loop of the parser, line by line. *)
Lemma parse_issue_keys_lines text :
  parse_issue_keys text =
    concat ((λ line,
               if bool_decide (strip line ≠ "")
                  && negb (BatchRoute.startswith "#"%char (strip line))
               then keys_of_line (strip line) else [])
              <$> split "010"%char text).
Proof. unfold BatchRoute.parse_issue_keys. by rewrite parse_loop_lines. Qed.

Lemma keys_of_line_clean line :
  ("010"%char ∉ chars line) → Forall (clean_key isspace) (keys_of_line line).
Proof.
  intros Hnl. unfold BatchRoute.keys_of_line.
  apply Forall_fmap, Forall_forall. intros key Hkey.
  apply list_elem_of_filter in Hkey as [Hne Hkey].
  pose proof (split_pieces_chars ","%char line) as Hpieces.
  apply (proj1 (Forall_forall _ _) Hpieces) in Hkey as [Hcomma Hsub].
  simpl. split; [done|]. split; [apply strip_idem|]. split.
  - intros Hin. by apply Hcomma, strip_chars.
  - intros Hin. by apply Hnl, Hsub, strip_chars.
Qed.

End text_facts.

Section text_round_trip.
Context (isspace : ascii → bool).

Local Abbreviation lstrip := (BatchRoute.lstrip isspace).
Local Abbreviation rstrip := (BatchRoute.rstrip isspace).
Local Abbreviation strip := (BatchRoute.strip isspace).
Local Abbreviation keys_of_line := (BatchRoute.keys_of_line isspace).
Local Abbreviation parse_issue_keys := (BatchRoute.parse_issue_keys isspace).

Lemma length_lstrip s : String.length (lstrip s) ≤ String.length s.
Proof.
  induction s as [|c s IH]; [done|]. simpl. destruct (isspace c); simpl; lia.
Qed.

Lemma length_rstrip s : String.length (rstrip s) ≤ String.length s.
Proof.
  induction s as [|c s IH]; [done|]. simpl.
  destruct (rstrip s) as [|c' t]; [destruct (isspace c)|]; simpl in *; lia.
Qed.

Lemma lstrip_full s : String.length s ≤ String.length (lstrip s) → lstrip s = s.
Proof.
  destruct s as [|c s]; [done|]. simpl. destruct (isspace c); [|done].
  intros Hlen. pose proof (length_lstrip s). lia.
Qed.

Lemma strip_fixed k : strip k = k → lstrip k = k ∧ rstrip k = k.
Proof.
  unfold BatchRoute.strip. intros Hk.
  assert (lstrip k = k) as Hl.
  { apply lstrip_full. rewrite <- Hk at 1. apply length_rstrip. }
  split; [done|]. by rewrite Hl in Hk.
Qed.

Lemma lstrip_append x y : x ≠ "" → lstrip x = x → lstrip (x +:+ y) = x +:+ y.
Proof.
  destruct x as [|c x]; [done|]. intros _. rewrite append_cons. simpl.
  destruct (isspace c); [|done].
  intros Heq. pose proof (length_lstrip x) as Hlen.
  rewrite Heq in Hlen. simpl in Hlen. lia.
Qed.

Lemma rstrip_cons c r : r ≠ "" → rstrip r = r → rstrip (String c r) = String c r.
Proof. intros Hne Hr. simpl. rewrite Hr. by destruct r. Qed.

Lemma rstrip_append x y : y ≠ "" → rstrip y = y → rstrip (x +:+ y) = x +:+ y.
Proof.
  intros Hne Hy. induction x as [|c x IH]; [done|].
  rewrite append_cons. apply rstrip_cons; [|done].
  destruct x; [done|]. by rewrite append_cons.
Qed.

Lemma join_cons sep k keys :
  keys ≠ [] → join sep (k :: keys) = k +:+ String sep (join sep keys).
Proof. by destruct keys. Qed.

Lemma join_clean_keys k keys :
  Forall (clean_key isspace) (k :: keys) →
  join ","%char (k :: keys) ≠ "" ∧
  lstrip (join ","%char (k :: keys)) = join ","%char (k :: keys) ∧
  rstrip (join ","%char (k :: keys)) = join ","%char (k :: keys) ∧
  ("010"%char ∉ chars (join ","%char (k :: keys))) ∧
  BatchRoute.startswith "#"%char (join ","%char (k :: keys))
    = BatchRoute.startswith "#"%char k.
Proof.
  revert k. induction keys as [|k' keys IH]; intros k Hkeys.
  - apply Forall_singleton in Hkeys as (Hne & Hstrip & _ & Hnl).
    apply strip_fixed in Hstrip as [Hl Hr]. done.
  - apply Forall_cons in Hkeys as [(Hne & Hstrip & _ & Hnl) Hkeys].
    apply strip_fixed in Hstrip as [Hl Hr].
    destruct (IH k' Hkeys) as (Hne' & Hl' & Hr' & Hnl' & _).
    rewrite join_cons by done. split; [|split; [|split; [|split]]].
    + destruct k; [done|]. by rewrite append_cons.
    + by apply lstrip_append.
    + apply rstrip_append; [done|]. by apply rstrip_cons.
    + rewrite chars_append. simpl. rewrite elem_of_app, elem_of_cons.
      intros [Hin|[Hin|Hin]]; [done | discriminate Hin | done].
    + destruct k; [done|]. by rewrite append_cons.
Qed.

Lemma keys_of_line_join keys :
  Forall (clean_key isspace) keys → keys ≠ [] →
  keys_of_line (join ","%char keys) = keys.
Proof.
  intros Hkeys Hne. unfold BatchRoute.keys_of_line.
  rewrite split_join; [|done|].
  - induction Hkeys as [|k keys (Hk & Hstrip & _) _ IH]; [done|].
    rewrite filter_cons, decide_True by (by rewrite Hstrip).
    rewrite fmap_cons, Hstrip. f_equal.
    destruct keys as [|k' keys]; [done|]. by apply IH.
  - eapply Forall_impl; [exact Hkeys|]. by intros k (_ & _ & Hcomma & _).
Qed.

Lemma parse_issue_keys_one_line keys :
  Forall (clean_key isspace) keys →
  (∀ k, head keys = Some k → BatchRoute.startswith "#"%char k = false) →
  parse_issue_keys (join ","%char keys) = keys.
Proof.
  intros Hkeys Hhash. rewrite parse_issue_keys_lines.
  destruct keys as [|k keys]; [done|].
  destruct (join_clean_keys k keys Hkeys) as (Hne & Hl & Hr & Hnl & Hstart).
  rewrite split_without_separator by done.
  assert (strip (join ","%char (k :: keys)) = join ","%char (k :: keys)) as Hs.
  { unfold BatchRoute.strip. by rewrite Hl, Hr. }
  cbn [fmap list_fmap concat]. rewrite Hs, Hstart, (Hhash k eq_refl).
  rewrite bool_decide_true by done. cbn [andb negb]. rewrite app_nil_r.
  by apply keys_of_line_join.
Qed.

Lemma parse_issue_keys_one_per_line keys :
  Forall (clean_key isspace) keys →
  Forall (λ k, BatchRoute.startswith "#"%char k = false) keys →
  parse_issue_keys (join "010"%char keys) = keys.
Proof.
  intros Hkeys Hhash. rewrite parse_issue_keys_lines.
  destruct (decide (keys = [])) as [->|Hne]; [done|].
  rewrite split_join; [|done|].
  - clear Hne.
    induction Hkeys as [|k keys Hk Hkeys IH]; [done|].
    apply Forall_cons in Hhash as [Hh Hhash].
    cbn [fmap list_fmap concat].
    pose proof Hk as (Hne & Hstrip & Hcomma & Hnl).
    rewrite Hstrip, Hh, bool_decide_true by done. cbn [andb negb].
    pose proof (keys_of_line_join [k]) as Hone. cbn [join] in Hone.
    rewrite Hone; [|by apply Forall_singleton|done].
    cbn [app]. f_equal. by apply IH.
  - eapply Forall_impl; [exact Hkeys|]. by intros k (_ & _ & _ & Hnl).
Qed.
End text_round_trip.

(** X25.  Every key the form parser returns is clean: not empty, without
    blanks at either end, and without a comma or a line break inside,
    whatever text was submitted. *)
Theorem parsed_issue_keys_are_clean
    (isspace : ascii → bool) (issue_keys_text : string) :
  Forall (clean_key isspace)
    (BatchRoute.parse_issue_keys isspace issue_keys_text).
Proof.
  rewrite parse_issue_keys_lines. apply Forall_concat, Forall_fmap, Forall_forall.
  intros line Hline. simpl.
  destruct (bool_decide (BatchRoute.strip isspace line ≠ "")
            && negb (BatchRoute.startswith "#"%char
                       (BatchRoute.strip isspace line))); [|done].
  apply keys_of_line_clean.
  pose proof (split_pieces_chars "010"%char issue_keys_text) as Hpieces.
  apply (proj1 (Forall_forall _ _) Hpieces) in Hline as [Hnl _].
  intros Hin. by apply Hnl, (strip_chars isspace).
Qed.

(** X26.  Clean keys come back as submitted, in order and with their
    repetitions: written one per line when none of them starts with [#],
    and written on one line with commas between them when the first does
    not start with [#]. *)
Theorem clean_keys_are_read_back
    (isspace : ascii → bool) (issue_keys : list string) :
  Forall (clean_key isspace) issue_keys →
  (Forall (λ k, BatchRoute.startswith "#"%char k = false) issue_keys →
   BatchRoute.parse_issue_keys isspace (join "010"%char issue_keys)
     = issue_keys) ∧
  ((∀ k, head issue_keys = Some k → BatchRoute.startswith "#"%char k = false) →
   BatchRoute.parse_issue_keys isspace (join ","%char issue_keys)
     = issue_keys).
Proof.
  intros Hkeys. split.
  - by apply parse_issue_keys_one_per_line.
  - by apply parse_issue_keys_one_line.
Qed.

Lemma clean_keys_are_read_back_witness :
  let issue_keys := ["PROJ-1"; "#PROJ-2"; "PROJ-1"] in
  (Forall (λ k, BatchRoute.startswith "#"%char k = false) issue_keys →
   BatchRoute.parse_issue_keys Ascii.is_space (join "010"%char issue_keys)
     = issue_keys) ∧
  ((∀ k, head issue_keys = Some k → BatchRoute.startswith "#"%char k = false) →
   BatchRoute.parse_issue_keys Ascii.is_space (join ","%char issue_keys)
     = issue_keys).
Proof.
  intros issue_keys.
  apply (clean_keys_are_read_back Ascii.is_space issue_keys).
  repeat apply Forall_cons_2; try apply Forall_nil_2;
    (split; [discriminate|]); (split; [reflexivity|]);
    split; vm_compute; intros Hin;
    repeat (apply elem_of_cons in Hin as [Hin|Hin]; [discriminate Hin|]);
    by apply elem_of_nil in Hin.
Defined.

(** ** The batch route *)




(** ** The best match *)




(** X29.  With the limit left at its default, the search returns at most
    five matches, so the rule-based confidence computed from them is at
    most [0.75]: the cap of [0.8] is not reached. *)
Theorem default_limit_keeps_confidence_below_cap
    (encode : string → floats) (order_by : list sql_row → list sql_row)
    (st : table) (desc : string) (threshold : option Q)
    (similar_incidents : list incident)
    (analysis : EnhancedJiraCommentUpdater.analysis) :
  EnhancedJiraCommentUpdater.search_similar_incidents
    encode order_by st desc threshold None = Ok similar_incidents →
  EnhancedJiraCommentUpdater.analyze_historical_patterns
    similar_incidents desc = Ok analysis →
  length similar_incidents ≤ Config.MAX_SIMILAR_INCIDENTS ∧
  (EnhancedJiraCommentUpdater.confidence_score analysis <= 75 # 100)%Q.
Proof.
  intros Hsearch Hanalysis.
  assert (length similar_incidents ≤ Config.MAX_SIMILAR_INCIDENTS) as Hlen.
  { apply search_Ok_inv in Hsearch as (rows & _ & ->). apply keep_above_length. }
  split; [exact Hlen|]. unfold Config.MAX_SIMILAR_INCIDENTS in Hlen.
  destruct (enhanced_confidence similar_incidents desc) as (a & Ha & Hc).
  rewrite Hanalysis in Ha. injection Ha as <-. rewrite Hc.
  destruct (Nat.eqb_spec (length similar_incidents) 0) as [H0|H0]; [done|].
  destruct (Nat.leb_spec0 3 (length similar_incidents)) as [H3|H3]; [|done].
  eapply Qle_trans; [apply py_min_le_r|].
  apply (Qle_trans _ (count_times_015 5)); [|done].
  by apply count_times_015_mono.
Qed.

Lemma default_limit_keeps_confidence_below_cap_witness :
  ∃ similar_incidents analysis,
    EnhancedJiraCommentUpdater.search_similar_incidents
      Sample.embed scan_order_engine Sample.table_abc "database is down"
      None None = Ok similar_incidents ∧
    EnhancedJiraCommentUpdater.analyze_historical_patterns
      similar_incidents "database is down" = Ok analysis ∧
    length similar_incidents ≤ Config.MAX_SIMILAR_INCIDENTS ∧
    (EnhancedJiraCommentUpdater.confidence_score analysis <= 75 # 100)%Q.
Proof.
  eexists _, _. split; [vm_compute; reflexivity|].
  split; [vm_compute; reflexivity|].
  eapply (default_limit_keeps_confidence_below_cap Sample.embed
            scan_order_engine Sample.table_abc "database is down" None);
    vm_compute; reflexivity.
Defined.
